(** * rss-data: the ingestion pipeline of [scripts/rss_fetcher.py] and
      [scripts/export_jsonl.py]

    A shallow embedding of the feed parser ([parse_rss], [_localname]), the
    item store ([RSSDB.save_items]), the exporter ([export]) and the two
    summary cleaners ([clean_summary], [clean_summary_for_snapshot]),
    followed by the properties of the specification that were checked
    against them.

    Conventions.
    - A Python [str] is the list of its Unicode code points ([pystr]);
      [None] is [None] of an [option].
    - A Python [dict] with string keys is a [gmap string _]: a key can be
      absent, or present with the value [None]; [dict.get] does not tell the
      two apart, [dict.setdefault] does.
    - An exception is a [Raise] of the [result] type.
    - The SQLite table [items] is the list of its rows in rowid order. *)

From Stdlib Require Import ZArith NArith Ascii String.
From Stdlib Require Import Sorting.Sorted Sorting.Permutation.
From stdpp Require Import gmap strings list sorting.

Open Scope N_scope.

(** ** The Python runtime: strings, truthiness, exceptions *)

Module Py.

(** A [str]: its code points. *)
Abbreviation pystr := (list N).

(** A literal of the source, all of whose characters are ASCII. *)
Definition U (s : string) : pystr :=
  map N_of_ascii (list_ascii_of_string s).

Inductive exn : Type :=
| IndexError
| OverflowError.

Inductive result (A : Type) : Type :=
| Ok (a : A)
| Raise (e : exn).
Arguments Ok {A} a.
Arguments Raise {A} e.

Definition bind {A B : Type} (r : result A) (f : A -> result B) : result B :=
  match r with
  | Ok a => f a
  | Raise e => Raise e
  end.

(** [for x in xs: acc = f(acc, x)], the first exception leaving the loop. *)
Fixpoint foldM {A B : Type} (f : B -> A -> result B) (xs : list A) (acc : B)
  : result B :=
  match xs with
  | [] => Ok acc
  | x :: xs' => bind (f acc x) (foldM f xs')
  end.

(** Truthiness of an optional string: [None] and [""] are falsy. *)
Definition truthy (o : option pystr) : bool :=
  match o with
  | Some (_ :: _) => true
  | _ => false
  end.

(** [a or b] on optional strings. *)
Definition por (a b : option pystr) : option pystr :=
  if truthy a then a else b.

(** [Py_UNICODE_ISSPACE]: what [str.isspace], [str.strip] and the class
    [\s] of a [str] pattern test. *)
Definition isspace (c : N) : bool :=
  ((0x09 <=? c) && (c <=? 0x0D)) || ((0x1C <=? c) && (c <=? 0x20))
  || (c =? 0x85) || (c =? 0xA0) || (c =? 0x1680)
  || ((0x2000 <=? c) && (c <=? 0x200A))
  || (c =? 0x2028) || (c =? 0x2029) || (c =? 0x202F) || (c =? 0x205F)
  || (c =? 0x3000).

Fixpoint lstrip (s : pystr) : pystr :=
  match s with
  | c :: s' => if isspace c then lstrip s' else s
  | [] => []
  end.

Definition rstrip (s : pystr) : pystr := rev (lstrip (rev s)).

(** [s.startswith(p)] *)
Fixpoint startswith (p s : pystr) : bool :=
  match p, s with
  | [], _ => true
  | a :: p', b :: s' => (a =? b) && startswith p' s'
  | _ :: _, [] => false
  end.

(** [s.strip()] *)
Definition strip (s : pystr) : pystr := rstrip (lstrip s).

(** Lexicographic comparison of two sequences of numbers: [s <= t] on
    [str], by code point, which is also the order of the BINARY collation of
    SQLite on the UTF-8 encodings; and [<=] on tuples of [int]. *)
Fixpoint str_leb (s t : pystr) : bool :=
  match s, t with
  | [], _ => true
  | _ :: _, [] => false
  | a :: s', b :: t' => (a <? b) || ((a =? b) && str_leb s' t')
  end.

(** What the Python library holds in tables that are no part of the
    repository: the alphanumeric code points of the Unicode database, and
    the substitution of character references of [html.unescape] (the
    [html5] entity table and the tables of invalid references). *)
Record Lib : Type := MkLib {
  isalnum : N -> bool;
  charref_sub : pystr -> pystr
}.

End Py.

(** ** The [re] module, as far as the cleaners use it *)

Module Re.
Import Py.

(** Character classes. *)
Inductive cls : Type :=
| Any                (* [\s\S] *)
| Space              (* \s *)
| Word               (* \w *)
| NotChar (c : N).   (* [^c] *)

(** Patterns: a character matched as it is, a literal matched under
    IGNORECASE, a class, a concatenation, an alternation, and the greedy
    repetition of a class, [{lo,hi}] or, without an upper bound, [*] and
    [+]. *)
Inductive re : Type :=
| Chr (c : N)
| Lit (c : N)
| Cls (k : cls)
| Seq (r1 r2 : re)
| Alt (r1 r2 : re)
| Rep (k : cls) (lo : nat) (hi : option nat).

(** The simple lower-case mapping, on the code points it sends to an ASCII
    letter: the upper-case ASCII letters, U+0130 and U+212A. Other code
    points are left alone: their lower case is no ASCII letter. *)
Definition lower_ascii (c : N) : N :=
  if (0x41 <=? c) && (c <=? 0x5A) then c + 32
  else if c =? 0x130 then 0x69
  else if c =? 0x212A then 0x6B
  else c.

(** IGNORECASE match of the subject code point [x] against the literal [p]
    of a pattern, [p] a lower-case ASCII letter or an uncased ASCII
    character: the lower case of [x] is [p], or one of the code points the
    [re] compiler adds for [p] (U+0131 for [i], U+017F for [s]). *)
Definition lit_match (p x : N) : bool :=
  (lower_ascii x =? p)
  || ((p =? 0x69) && (x =? 0x131))
  || ((p =? 0x73) && (x =? 0x17F)).

Section WithLib.
Variable L : Lib.

Definition cls_match (k : cls) (x : N) : bool :=
  match k with
  | Any => true
  | Space => isspace x
  | Word => isalnum L x || (x =? 0x5F)
  | NotChar c => negb (x =? c)
  end.

Definition dec_hi (hi : option nat) : option nat :=
  match hi with
  | Some n => Some (Nat.pred n)
  | None => None
  end.

Definition hi_open (hi : option nat) : bool :=
  match hi with
  | Some O => false
  | _ => true
  end.

(** Greedy repetition with backtracking: take one more character when
    the class and the upper bound allow it and the rest of the pattern
    ([k]) then matches; otherwise stop here when [lo] is reached. *)
Fixpoint rep_match (c : cls) (lo : nat) (hi : option nat) (s : pystr)
         (k : pystr -> option pystr) : option pystr :=
  let stop := match lo with O => k s | S _ => None end in
  match s with
  | x :: s' =>
      if cls_match c x && hi_open hi then
        match rep_match c (Nat.pred lo) (dec_hi hi) s' k with
        | Some r => Some r
        | None => stop
        end
      else stop
  | [] => stop
  end.

(** The backtracking matcher: [re_match r s k] matches [r] at the head
    of [s] and hands the rest of the subject to [k]; the result is the
    subject left after the whole match. *)
Fixpoint re_match (r : re) (s : pystr) (k : pystr -> option pystr)
  : option pystr :=
  match r with
  | Chr p =>
      match s with
      | x :: s' => if x =? p then k s' else None
      | [] => None
      end
  | Lit p =>
      match s with
      | x :: s' => if lit_match p x then k s' else None
      | [] => None
      end
  | Cls c =>
      match s with
      | x :: s' => if cls_match c x then k s' else None
      | [] => None
      end
  | Seq r1 r2 => re_match r1 s (fun s' => re_match r2 s' k)
  | Alt r1 r2 =>
      match re_match r1 s k with
      | Some rest => Some rest
      | None => re_match r2 s k
      end
  | Rep c lo hi => rep_match c lo hi s k
  end.

(** The length of the match of [r] at the head of [s], if there is one. *)
Definition match_len (r : re) (s : pystr) : option nat :=
  match re_match r s Some with
  | Some rest => Some (length s - length rest)%nat
  | None => None
  end.

(** [re.sub(r, repl, s)] for a literal replacement: scan from the left,
    replace each match and resume behind it. [skip] counts the
    characters of the current match still to pass over. An empty match is
    replaced too, and the scan moves on by one character (none of the
    patterns of the cleaners matches the empty string). *)
Fixpoint sub_from (r : re) (repl : pystr) (skip : nat) (s : pystr) : pystr :=
  match s with
  | [] =>
      match skip, match_len r [] with
      | O, Some _ => repl
      | _, _ => []
      end
  | x :: s' =>
      match skip with
      | S n => sub_from r repl n s'
      | O =>
          match match_len r s with
          | Some (S n) => repl ++ sub_from r repl n s'
          | Some O => repl ++ x :: sub_from r repl O s'
          | None => x :: sub_from r repl O s'
          end
      end
  end.

Definition sub (r : re) (repl : pystr) (s : pystr) : pystr :=
  sub_from r repl O s.

(** [re.search(r, s) is not None] *)
Fixpoint search (r : re) (s : pystr) : bool :=
  match match_len r s with
  | Some _ => true
  | None =>
      match s with
      | [] => false
      | _ :: s' => search r s'
      end
  end.

End WithLib.

(** The pattern that a literal string [c s] of the source stands for. *)
Fixpoint lits (c : N) (s : pystr) : re :=
  match s with
  | [] => Lit c
  | c' :: s' => Seq (Lit c) (lits c' s')
  end.

Definition lit (s : string) : re :=
  match U s with
  | c :: s' => lits c s'
  | [] => Rep Any 0 (Some 0%nat)
  end.

End Re.

(** [html.unescape]: a string without [&] is returned as it is, any other
    goes through the substitution of character references. *)
Module Html.
Import Py.

Definition unescape (L : Lib) (s : pystr) : pystr :=
  if existsb (N.eqb 0x26) s then charref_sub L s else s.

End Html.

(** ** The table [items] and the SQL statements run on it

    [CREATE TABLE items (id INTEGER PRIMARY KEY, guid TEXT UNIQUE, title TEXT,
    link TEXT, published TEXT, summary TEXT, fetched_at TEXT)]. The position
    of a row in the list stands for its [id]. *)

Module Sqlite.
Import Py.

Record row : Type := Row {
  guid : option pystr;
  title : option pystr;
  link : option pystr;
  published : option pystr;
  summary : option pystr;
  fetched_at : pystr
}.

Abbreviation table := (list row).

(** The UNIQUE constraint on [guid]: a NULL collides with nothing. *)
Definition guid_taken (t : table) (g : option pystr) : bool :=
  match g with
  | Some _ => existsb (fun r => bool_decide (guid r = g)) t
  | None => false
  end.

(** [INSERT INTO items (...) VALUES (...)]: [None] is the
    [sqlite3.IntegrityError] of a colliding [guid], which leaves the table
    as it was. *)
Definition insert (t : table) (r : row) : option table :=
  if guid_taken t (guid r) then None else Some (t ++ [r]).

(** The order of [ORDER BY fetched_at ASC]. *)
Definition fetched_le (r1 r2 : row) : Prop :=
  str_leb (fetched_at r1) (fetched_at r2) = true.

#[export] Instance fetched_le_dec : RelDecision fetched_le.
Proof. intros r1 r2. unfold fetched_le. apply _. Defined.

(** [ORDER BY fetched_at ASC], as a merge sort of the rows. *)
Definition order_by_fetched_at (t : table) : table :=
  merge_sort fetched_le t.

(** [WHERE fetched_at >= ?] *)
Definition where_fetched_ge (threshold : pystr) (t : table) : table :=
  List.filter (fun r => str_leb threshold (fetched_at r)) t.

(** [LIMIT ?]: a negative bound is no bound. *)
Definition limit_rows (k : Z) (t : table) : table :=
  if (k <? 0)%Z then t else firstn (Z.to_nat k) t.

(** A Python [int] is bound to a parameter as a 64-bit integer. *)
Definition bind_int (k : Z) : result Z :=
  if ((- 2 ^ 63 <=? k) && (k <? 2 ^ 63))%Z then Ok k else Raise OverflowError.

End Sqlite.

(** ** [scripts/export_jsonl.py] *)

Module ExportJsonl.
Import Py Re Sqlite.

Definition patterns : list re :=
  [ (* we use cookies to ensure[\s\S]{0,200} *)
    Seq (lit "we use cookies to ensure") (Rep Any 0 (Some 200%nat));
    (* by continued use, you (agree|accept)[\s\S]{0,200} *)
    Seq (lit "by continued use, you ")
        (Seq (Alt (lit "agree") (lit "accept")) (Rep Any 0 (Some 200%nat)));
    (* click (find out more|here for more) *)
    Seq (lit "click ") (Alt (lit "find out more") (lit "here for more"));
    lit "i agree";
    lit "find out more";
    lit "advertisement";
    (* filtered by:\s*\w+ *)
    Seq (lit "filtered by:") (Seq (Rep Space 0 None) (Rep Word 1 None));
    lit "read more";
    lit "continue reading";
    lit "subscribe" ].

(** <[^>]+> *)
Definition tag_re : re :=
  Seq (Chr 0x3C) (Seq (Rep (NotChar 0x3E) 1 None) (Chr 0x3E)).

(** \s+ *)
Definition ws_re : re := Rep Space 1 None.

Section WithLib.
Variable L : Lib.

(** [for p in patterns: s = re.sub(p, " ", s, flags=re.IGNORECASE)] *)
Definition remove_patterns (s : pystr) : pystr :=
  fold_left (fun s p => sub L p (U " ") s) patterns s.

(** [clean_summary(text)] *)
Definition clean_summary (text : option pystr) : option pystr :=
  if negb (truthy text) then text
  else
    match text with
    | Some s =>
        let s := remove_patterns s in
        let s := sub L tag_re (U " ") s in
        let s := Html.unescape L s in
        let s := strip (sub L ws_re (U " ") s) in
        if truthy (Some s) then Some s else None
    | None => None
    end.

(** The query of [export]: the WHERE clause is added for a truthy [since],
    the LIMIT clause for a truthy [limit]. *)
Definition select_since (t : table) (since : option pystr) (limit : option Z)
  : result table :=
  let rs := if truthy since
            then match since with
                 | Some th => where_fetched_ge th t
                 | None => t
                 end
            else t in
  let rs := order_by_fetched_at rs in
  match limit with
  | Some k =>
      if (k =? 0)%Z then Ok rs
      else bind (bind_int k) (fun k => Ok (limit_rows k rs))
  | None => Ok rs
  end.

(** The object written for a row: the row with its summary cleaned. *)
Definition project (r : row) : row :=
  Row (guid r) (title r) (link r) (published r) (clean_summary (summary r))
      (fetched_at r).

(** [export(db_path, out_path, since, limit)] on the table of the database:
    the objects written to the file, one a line, and [written]. *)
Definition export (t : table) (since : option pystr) (limit : option Z)
  : result (list row * nat) :=
  bind (select_since t since limit) (fun rs =>
    Ok (map project rs, length rs)).

End WithLib.

End ExportJsonl.

(** ** [scripts/rss_fetcher.py] *)

Module RssFetcher.
Import Py Re Sqlite.

(** A canonical item: the [dict] that [parse_rss] builds and [save_items]
    reads. *)
Abbreviation item := (gmap string (option pystr)).

(** [d.get(k)] *)
Definition get (d : item) (k : string) : option pystr :=
  default None (d !! k).

(** [d.setdefault(k, v)] *)
Definition setdefault (d : item) (k : string) (v : option pystr) : item :=
  match d !! k with
  | Some _ => d
  | None => <[k := v]> d
  end.

(** *** The clock: [datetime.utcnow().isoformat() + "Z"] *)

Record datetime : Type := Datetime {
  year : N; month : N; day : N;
  hour : N; minute : N; second : N; microsecond : N
}.

(** ['%0wd' % n], for [n] below [10 ^ w] as the fields of a [datetime] are. *)
Fixpoint zero_padded (w : nat) (n : N) : pystr :=
  match w with
  | O => []
  | S w' => zero_padded w' (n / 10) ++ [0x30 + n mod 10]
  end.

(** [d.isoformat()]: the microseconds are left out when they are zero. *)
Definition isoformat (d : datetime) : pystr :=
  zero_padded 4 (year d) ++ U "-" ++ zero_padded 2 (month d) ++ U "-"
  ++ zero_padded 2 (day d) ++ U "T" ++ zero_padded 2 (hour d) ++ U ":"
  ++ zero_padded 2 (minute d) ++ U ":" ++ zero_padded 2 (second d)
  ++ (if microsecond d =? 0 then []
      else U "." ++ zero_padded 6 (microsecond d)).

(** [a <= b] on two [datetime]: the order of their fields, taken from the
    year down to the microsecond. *)
Definition fields (d : datetime) : list N :=
  [year d; month d; day d; hour d; minute d; second d; microsecond d].

Definition datetime_leb (a b : datetime) : bool :=
  str_leb (fields a) (fields b).

(** *** [class RSSDB] *)

(** The database of a run, and the number of readings taken from the clock
    so far. *)
Record rssdb : Type := RssDb {
  items : table;
  clock : nat
}.

Section WithClock.
(** [utcnow n] is what the [n]-th call of [datetime.utcnow()] returns. *)
Variable utcnow : nat -> datetime.

(** One turn of the loop of [save_items]: the row is built, the clock read,
    and the INSERT tried; an [IntegrityError] is passed over. *)
Definition save_item (st : rssdb * nat) (it : item) : rssdb * nat :=
  let '(db, inserted) := st in
  let r := Row (get it "guid") (get it "title") (get it "link")
               (get it "published") (get it "summary")
               (isoformat (utcnow (clock db)) ++ U "Z") in
  match insert (items db) r with
  | Some t => (RssDb t (S (clock db)), S inserted)
  | None => (RssDb (items db) (S (clock db)), inserted)
  end.

(** [RSSDB.save_items(items)]: the database afterwards and [inserted]. *)
Definition save_items (db : rssdb) (its : list item) : rssdb * nat :=
  fold_left save_item its (db, O).

End WithClock.

(** *** [export_db_to_json] *)

Definition patterns : list re :=
  [ (* we use cookies to ensure[\s\S]{0,200} *)
    Seq (lit "we use cookies to ensure") (Rep Any 0 (Some 200%nat));
    (* by continued use, you (agree|accept)[\s\S]{0,200} *)
    Seq (lit "by continued use, you ")
        (Seq (Alt (lit "agree") (lit "accept")) (Rep Any 0 (Some 200%nat)));
    (* click (find out more|here for more) *)
    Seq (lit "click ") (Alt (lit "find out more") (lit "here for more"));
    lit "i agree";
    lit "find out more";
    lit "advertisement";
    (* filtered by:\s*\w+ *)
    Seq (lit "filtered by:") (Seq (Rep Space 0 None) (Rep Word 1 None));
    lit "read more";
    lit "continue reading";
    lit "subscribe" ].

Section WithLib.
Variable L : Lib.

(** [clean_summary_for_snapshot(s)] *)
Definition clean_summary_for_snapshot (s : option pystr) : option pystr :=
  if negb (truthy s) then None
  else
    match s with
    | Some s =>
        let s := fold_left (fun s p => sub L p (U " ") s) patterns s in
        (* <[^>]+> *)
        let s := sub L (Seq (Chr 0x3C)
                          (Seq (Rep (NotChar 0x3E) 1 None) (Chr 0x3E)))
                     (U " ") s in
        let s := Html.unescape L s in
        (* \s+ *)
        let s := strip (sub L (Rep Space 1 None) (U " ") s) in
        if truthy (Some s) then Some s else None
    | None => None
    end.

(** [export_db_to_json(db_path, out_path)] on the table of the database:
    the objects written and [written]. *)
Definition export_db_to_json (t : table) : list row * nat :=
  let rs := order_by_fetched_at t in
  (map (fun r => Row (guid r) (title r) (link r) (published r)
                     (clean_summary_for_snapshot (summary r)) (fetched_at r))
       rs,
   length rs).

End WithLib.

(** *** The feed parser *)

(** An element of the tree that [ET.fromstring] returns: [tag] is
    ["{uri}local"] for a name in a namespace and ["local"] otherwise. *)
#[warnings="-register-all"]
Inductive elem : Type :=
  Elem (tag : pystr) (attrib : gmap pystr pystr) (text : option pystr)
       (children : list elem).

Definition tag (e : elem) : pystr := let 'Elem t _ _ _ := e in t.
Definition attrib (e : elem) : gmap pystr pystr := let 'Elem _ a _ _ := e in a.
Definition text (e : elem) : option pystr := let 'Elem _ _ x _ := e in x.
Definition children (e : elem) : list elem := let 'Elem _ _ _ c := e in c.

(** [s.split(sep, 1)[1]]: what follows the first [sep], an [IndexError]
    when [sep] does not occur. *)
Fixpoint after_first (sep : N) (s : pystr) : result pystr :=
  match s with
  | [] => Raise IndexError
  | c :: s' => if c =? sep then Ok s' else after_first sep s'
  end.

(** [_localname(tag)], for a tag that is not [None]. *)
Definition _localname (t : pystr) : result pystr :=
  if startswith (U "{") t then after_first 0x7D t else Ok t.

(** [root.findall('.//')]: the path is completed to ['.//*'], all the
    elements below the root, in document order. *)
Fixpoint iter (e : elem) : list elem :=
  match e with
  | Elem _ _ _ cs => e :: flat_map iter cs
  end.

Definition findall_descendants (root : elem) : list elem :=
  tail (iter root).

(** [child.text.strip() if child.text and child.text.strip() else None] *)
Definition stripped_text (child : elem) : option pystr :=
  if truthy (text child) && truthy (strip <$> text child)
  then strip <$> text child
  else None.

(** The body of [for child in item]. *)
Definition collect (data : item) (child : elem) : result item :=
  bind (_localname (tag child)) (fun name =>
    let text := stripped_text child in
    Ok (if bool_decide (name = U "guid") then <["guid" := text]> data
        else if bool_decide (name = U "link") then
          let href := attrib child !! U "href" in
          setdefault data "link" (por href text)
        else if bool_decide (name ∈ [U "title"; U "description";
                                      U "summary"; U "content"]) then
          if bool_decide (name = U "title") then <["title" := text]> data
          else setdefault data "summary" text
        else if bool_decide (name ∈ [U "pubDate"; U "published";
                                      U "updated"]) then
          setdefault data "published" text
        else data)).

(** The two fallbacks that follow the loop. *)
Definition fallbacks (data : item) : item :=
  let data := if negb (truthy (get data "guid"))
              then <["guid" := get data "link"]> data
              else data in
  setdefault data "title"
    (por (get data "summary") (Some (U "(no title)"))).

(** The record of one [item] or [entry] element. *)
Definition parse_entry (e : elem) : result item :=
  bind (foldM collect (children e) ∅) (fun data => Ok (fallbacks data)).

(** [parse_rss(xml_bytes)], on the tree of the document. *)
Definition parse_rss (root : elem) : result (list item) :=
  foldM (fun its e =>
           bind (_localname (tag e)) (fun name =>
             if bool_decide (name ∈ [U "item"; U "entry"])
             then bind (parse_entry e) (fun data => Ok (its ++ [data]))
             else Ok its))
        (findall_descendants root) [].

(** *** [run_poll] *)

(** What the poller holds: the database, and the objects of the snapshot
    file [rss_items.jsonl]. *)
Record poller : Type := Poller {
  store : rssdb;
  snapshot : list row
}.

Section WithWorld.
Variable L : Lib.
Variable utcnow : nat -> datetime.
(** [stop n] is the value of the global [STOP] when it is read for the [n]-th
    time. *)
Variable stop : nat -> bool.
(** [feeds n] is what the URLs deliver in the [n]-th pass, in the order of
    [urls]: the tree of the document, or [None] when [fetch_feed] or
    [ET.fromstring] raises. *)
Variable feeds : nat -> list (option elem).

(** The body of [for url in urls]: whatever is raised inside the [try] is
    caught and logged, and the URL adds nothing. *)
Definition poll_url (st : rssdb * nat) (feed : option elem) : rssdb * nat :=
  let '(db, total_added) := st in
  match feed with
  | Some root =>
      match parse_rss root with
      | Ok its =>
          let '(db', added) := save_items utcnow db its in
          (db', (total_added + added)%nat)
      | Raise _ => (db, total_added)
      end
  | None => (db, total_added)
  end.

(** One pass over the URLs, and the snapshot written anew when the pass
    added a row: the poller afterwards and [total_added]. *)
Definition poll_pass (p : poller) (fs : list (option elem)) : poller * nat :=
  let '(db, total_added) := fold_left poll_url fs (store p, O) in
  (Poller db (if (0 <? total_added)%nat
              then (export_db_to_json L (items db)).1
              else snapshot p),
   total_added).

(** The interruptible sleep: [while slept < interval], one second at a
    time. The result is [slept] and the number of reads of [STOP] so far;
    [None] when the fuel runs out. *)
Fixpoint wait (fuel : nat) (interval slept : Z) (reads : nat)
  : option (Z * nat) :=
  if (slept <? interval)%Z then
    match fuel with
    | O => None
    | S fuel' =>
        if stop reads then Some (slept, S reads)
        else
          let to_sleep := Z.min 1 (interval - slept) in
          wait fuel' interval (slept + to_sleep)%Z (S reads)
    end
  else Some (slept, reads).

(** The loop [while True] of [run_poll], [fuel] passes at most: the poller
    at the [break] and the number of passes made. *)
Fixpoint run_loop (fuel : nat) (interval : Z) (once : bool)
         (p : poller) (reads pass : nat) : option (poller * nat) :=
  match fuel with
  | O => None
  | S fuel' =>
      if stop reads then Some (p, pass)
      else
        let p' := (poll_pass p (feeds pass)).1 in
        if once then Some (p', S pass)
        else
          match wait (Z.to_nat interval) interval 0 (S reads) with
          | Some (_, reads') => run_loop fuel' interval once p' reads' (S pass)
          | None => None
          end
  end.

(** [run_poll(urls, db_path, interval, once)] on the database as it is at
    the start: the first snapshot is written, then the loop runs. The URLs
    are a list (a single string is wrapped into one); what they deliver is
    [feeds]. *)
Definition run_poll (fuel : nat) (interval : Z) (once : bool) (db : rssdb)
  : option (poller * nat) :=
  run_loop fuel interval once
           (Poller db (export_db_to_json L (items db)).1) O O.

End WithWorld.

End RssFetcher.

(** ** An instance of the library tables

    The ASCII part of the Unicode database, and a substitution of character
    references that knows six named references. It serves to run the
    definitions on subjects within that range; the theorems hold for every
    [Lib]. *)

Module AsciiLib.
Import Py.

Definition ascii_isalnum (c : N) : bool :=
  ((0x30 <=? c) && (c <=? 0x39)) || ((0x41 <=? c) && (c <=? 0x5A))
  || ((0x61 <=? c) && (c <=? 0x7A)).

Definition named_refs : list (pystr * N) :=
  [ (U "amp;", 0x26); (U "lt;", 0x3C); (U "gt;", 0x3E); (U "quot;", 0x22);
    (U "apos;", 0x27); (U "nbsp;", 0xA0) ].

Fixpoint replace_refs (skip : nat) (s : pystr) : pystr :=
  match s with
  | [] => []
  | x :: s' =>
      match skip with
      | S n => replace_refs n s'
      | O =>
          if x =? 0x26 then
            match List.find (fun e => startswith (fst e) s') named_refs with
            | Some (name, c) => c :: replace_refs (length name) s'
            | None => x :: replace_refs O s'
            end
          else x :: replace_refs O s'
      end
  end.

Definition lib : Lib := MkLib ascii_isalnum (replace_refs O).

End AsciiLib.

(** ** Vocabulary of the properties *)

Module Props.
Import Py Re Sqlite RssFetcher.

(** The number of rows of a table that carry the guid [g]. *)
Definition guid_count (g : pystr) (t : table) : nat :=
  length (List.filter (fun r => bool_decide (guid r = Some g)) t).

(** The invariant of the table: no guid is stored twice. *)
Definition unique_guids (t : table) : Prop :=
  forall g, (guid_count g t <= 1)%nat.

(** A limit that the exporter passes on as a cap: none, or a positive
    64-bit integer. *)
Definition capping (limit : option Z) : Prop :=
  match limit with
  | Some k => (0 < k < 2 ^ 63)%Z
  | None => True
  end.

(** The tag [t] is the name [local], in no namespace or in the namespace
    [ns]. *)
Definition qualified (ns local : pystr) : pystr :=
  0x7B :: (ns ++ 0x7D :: local).

Definition named (local : string) (t : pystr) : Prop :=
  t = U local \/ exists ns, (0x7D ∉ ns) /\ t = qualified ns (U local).

(** The local name of the element is one of [names]. *)
Definition has_name (names : list string) (c : elem) : bool :=
  match _localname (tag c) with
  | Ok n => bool_decide (n ∈ map U names)
  | Raise _ => false
  end.

(** The tag of the element has a local name: it does not open a brace that
    it never closes. *)
Definition tag_ok (c : elem) : Prop :=
  exists n, _localname (tag c) = Ok n.

(** Nothing is left in [t] for a second pass of [clean_summary] to act on:
    no match of a pattern of [patterns], no tag, no [&]. *)
Definition residue_free (L : Lib) (t : pystr) : bool :=
  forallb (fun p => negb (search L p t)) ExportJsonl.patterns
  && negb (search L ExportJsonl.tag_re t)
  && negb (existsb (N.eqb 0x26) t).

(** [re.sub(r"\s+", " ", s)] written as a direct recursion: [in_ws] tells
    that the character before was white space. *)
Fixpoint collapse_from (in_ws : bool) (s : pystr) : pystr :=
  match s with
  | [] => []
  | x :: s' =>
      if isspace x
      then (if in_ws then collapse_from true s'
            else 0x20 :: collapse_from true s')
      else x :: collapse_from false s'
  end.

(** Every white space of [t] is one U+0020 that follows a character which
    is none ([prev] tells whether the character before [t] was white
    space). *)
Fixpoint single_spaced (prev : bool) (t : pystr) : bool :=
  match t with
  | [] => true
  | x :: t' =>
      if isspace x then (x =? 0x20) && negb prev && single_spaced true t'
      else single_spaced false t'
  end.

(** The same, and [t] does not end in white space. *)
Fixpoint trimmed (prev : bool) (t : pystr) : bool :=
  match t with
  | [] => negb prev
  | x :: t' =>
      if isspace x then (x =? 0x20) && negb prev && trimmed true t'
      else trimmed false t'
  end.

(** The keys that [parse_rss] writes into a record. *)
Definition field_names : list string :=
  ["guid"; "link"; "title"; "summary"; "published"].

(** The local names that the loop of [parse_rss] acts on. *)
Definition recognized : list string :=
  ["guid"; "link"; "title"; "description"; "summary"; "content";
   "pubDate"; "published"; "updated"].

(** The shape of a record: the keys [guid] and [title] are there, every key
    is one of [field_names], and no value is the empty string. *)
Definition record_shape (d : item) : Prop :=
  is_Some (d !! "guid") /\ is_Some (d !! "title")
  /\ (forall k, is_Some (d !! k) -> k ∈ field_names)
  /\ (forall k, get d k <> Some []).

(** What the loop of [parse_rss] keeps of a record: every key is a field
    name and no value is the empty string. *)
Definition fields_only (d : item) : Prop :=
  (forall k, is_Some (d !! k) -> k ∈ field_names)
  /\ (forall k, d !! k <> Some (Some [])).

(** The fields of a [datetime] as far as their widths in [isoformat] go
    (every [datetime] is within them: the year is at most 9999, the
    microsecond at most 999999). *)
Definition in_range (d : datetime) : Prop :=
  year d < 10000 /\ month d < 100 /\ day d < 100 /\ hour d < 100
  /\ minute d < 100 /\ second d < 100 /\ microsecond d < 1000000.

(** The three-way lexicographic comparison that [str_leb] decides. *)
Fixpoint lex_compare (s t : list N) : comparison :=
  match s, t with
  | [], [] => Eq
  | [], _ :: _ => Lt
  | _ :: _, [] => Gt
  | a :: s', b :: t' =>
      match a ?= b with
      | Eq => lex_compare s' t'
      | c => c
      end
  end.

(** The rows of the table were stamped by readings of the clock that the
    database has taken, and lie in non-decreasing order of [fetched_at]. *)
Definition stamped_in_order (utcnow : nat -> datetime) (db : rssdb) : Prop :=
  Sorted fetched_le (items db)
  /\ Forall (fun r => exists n, (n < clock db)%nat
                      /\ fetched_at r = isoformat (utcnow n) ++ U "Z")
            (items db).

(** The URL delivered a document that [parse_rss] turns into records. *)
Definition delivers (feed : option elem) : bool :=
  match feed with
  | Some root => match parse_rss root with Ok _ => true | Raise _ => false end
  | None => false
  end.

(** Every record of the document has a guid. *)
Definition all_with_guid (feed : option elem) : Prop :=
  match feed with
  | Some root =>
      match parse_rss root with
      | Ok its => Forall (fun it => get it "guid" <> None) its
      | Raise _ => True
      end
  | None => True
  end.

End Props.

(** ** Concrete inputs *)

Module Samples.
Import Py Sqlite RssFetcher.

(** A clock that stands still, off the full second. *)
Definition clock : nat -> datetime :=
  fun _ => Datetime 2025 10 25 12 0 0 1.

Definition item_a : item :=
  {[ "guid" := Some (U "A"); "title" := Some (U "First") ]}.

Definition item_b : item :=
  {[ "guid" := Some (U "B"); "title" := Some (U "Second") ]}.

Definition item_without_guid : item :=
  {[ "guid" := None; "title" := Some (U "(no title)") ]}.

(** [<item><title>First</title><link>http://x/1</link>
    <description>Body</description></item>] *)
Definition entry_with_link : elem :=
  Elem (U "item") ∅ None
    [ Elem (U "title") ∅ (Some (U "First")) [];
      Elem (U "link") ∅ (Some (U "http://x/1")) [];
      Elem (U "description") ∅ (Some (U "Body")) [] ].

(** [<item><guid>g2</guid><category>news</category></item>] *)
Definition entry_with_guid : elem :=
  Elem (U "item") ∅ None
    [ Elem (U "guid") ∅ (Some (U "g2")) [];
      Elem (U "category") ∅ (Some (U "news")) [] ].

(** [<item><category>news</category></item>] *)
Definition entry_with_category : elem :=
  Elem (U "item") ∅ None [ Elem (U "category") ∅ (Some (U "news")) [] ].

(** An RSS document with the first two entries. *)
Definition feed : elem :=
  Elem (U "rss") ∅ None
    [ Elem (U "channel") ∅ None
        [ Elem (U "title") ∅ (Some (U "Channel")) [];
          entry_with_link; entry_with_guid ] ].

Definition row_early : row :=
  Row (Some (U "A")) None None None (Some (U "<p>Body</p>"))
      (U "2025-10-25T12:00:00.000001Z").

Definition row_late : row :=
  Row (Some (U "B")) None None None None
      (U "2025-10-25T12:00:00.000002Z").

End Samples.

(** * Properties *)

Import Py Re Sqlite RssFetcher Props.

(** ** The regular expressions of the cleaners *)

Section ReFacts.
Variable L : Lib.

(** A pattern that matches nowhere leaves the subject as it is. *)
Lemma sub_no_match r repl s :
  search L r s = false -> sub L r repl s = s.
Proof.
  unfold sub. induction s as [|x s IH]; simpl.
  - destruct (match_len L r []); [discriminate | reflexivity].
  - destruct (match_len L r (x :: s)); [discriminate |].
    intros H. rewrite IH; auto.
Qed.

Lemma fold_sub_no_match repl ps s :
  forallb (fun p => negb (search L p s)) ps = true ->
  fold_left (fun s p => sub L p repl s) ps s = s.
Proof.
  induction ps as [|p ps IH]; simpl; [reflexivity |].
  intros [Hp Hps]%andb_true_iff.
  apply negb_true_iff in Hp. rewrite sub_no_match by exact Hp. auto.
Qed.

Lemma length_lstrip s : (length (lstrip s) <= length s)%nat.
Proof.
  induction s as [|x s IH]; simpl; [lia |].
  destruct (isspace x); simpl; lia.
Qed.

(** [\s*] followed by nothing takes all the white space at the head. *)
Lemma rep_space_star s :
  rep_match L Space 0 None s Some = Some (lstrip s).
Proof.
  induction s as [|x s IH]; simpl; [reflexivity |].
  destruct (isspace x); simpl; [rewrite IH |]; reflexivity.
Qed.

(** [\s+] matches at a white space, up to the first character that is
    none. *)
Lemma match_len_ws x s :
  match_len L ExportJsonl.ws_re (x :: s) =
  if isspace x then Some (S (length s - length (lstrip s))) else None.
Proof.
  unfold match_len, ExportJsonl.ws_re. simpl.
  destruct (isspace x) eqn:Hx; simpl; [| reflexivity].
  rewrite rep_space_star. f_equal.
  pose proof (length_lstrip s). lia.
Qed.

Lemma match_len_ws_nil : match_len L ExportJsonl.ws_re [] = None.
Proof. reflexivity. Qed.

(** The substitution of [\s+] is the direct recursion [collapse_from]. *)
Lemma sub_from_ws s :
  sub_from L ExportJsonl.ws_re (U " ") (length s - length (lstrip s)) s
  = collapse_from true s
  /\ sub_from L ExportJsonl.ws_re (U " ") 0 s = collapse_from false s.
Proof.
  induction s as [|x s [IH1 IH2]].
  - split; reflexivity.
  - pose proof (length_lstrip s) as Hlen. split.
    + cbn [lstrip collapse_from]. destruct (isspace x) eqn:Hx.
      * replace (length (x :: s) - length (lstrip s))%nat
          with (S (length s - length (lstrip s))) by (simpl; lia).
        cbn [sub_from]. exact IH1.
      * replace (length (x :: s) - length (x :: s))%nat with 0%nat by lia.
        cbn [sub_from]. rewrite match_len_ws, Hx, IH2. reflexivity.
    + cbn [sub_from collapse_from]. rewrite match_len_ws.
      destruct (isspace x) eqn:Hx.
      * rewrite IH1. reflexivity.
      * rewrite IH2. reflexivity.
Qed.

Lemma sub_ws s : sub L ExportJsonl.ws_re (U " ") s = collapse_from false s.
Proof. apply sub_from_ws. Qed.

End ReFacts.

(** ** White space after [re.sub(r"\s+", " ", s).strip()] *)

Section Spacing.

Lemma isspace_sp : isspace 0x20 = true.
Proof. reflexivity. Qed.

Lemma single_spaced_collapse b s : single_spaced b (collapse_from b s) = true.
Proof.
  revert b. induction s as [|x s IH]; intros b; simpl; [reflexivity |].
  destruct (isspace x) eqn:Hx.
  - destruct b; [apply IH |].
    cbn [single_spaced]. rewrite isspace_sp. apply IH.
  - simpl. rewrite Hx. apply IH.
Qed.

Lemma single_spaced_lstrip p s :
  single_spaced p s = true -> single_spaced true (lstrip s) = true.
Proof.
  revert p. induction s as [|x s IH]; intros p; simpl; [reflexivity |].
  destruct (isspace x) eqn:Hx.
  - intros [_ H]%andb_true_iff. eauto.
  - intros H. simpl. rewrite Hx. exact H.
Qed.

Lemma single_spaced_app_l p s t :
  single_spaced p (s ++ t) = true -> single_spaced p s = true.
Proof.
  revert p. induction s as [|x s IH]; intros p; simpl; [reflexivity |].
  destruct (isspace x).
  - intros [H1 H2]%andb_true_iff. rewrite H1. eauto.
  - eauto.
Qed.

Lemma trimmed_snoc p s x :
  single_spaced p (s ++ [x]) = true -> isspace x = false ->
  trimmed p (s ++ [x]) = true.
Proof.
  revert p. induction s as [|y s IH]; intros p; simpl.
  - intros _ ->. reflexivity.
  - destruct (isspace y).
    + intros [H1 H2]%andb_true_iff Hx. rewrite H1. eauto.
    + eauto.
Qed.

Lemma rstrip_snoc s x :
  rstrip (s ++ [x]) = if isspace x then rstrip s else s ++ [x].
Proof.
  unfold rstrip. rewrite rev_app_distr. simpl.
  destruct (isspace x); [reflexivity |].
  simpl. rewrite rev_involutive. reflexivity.
Qed.

Lemma trimmed_rstrip p s :
  single_spaced p s = true -> rstrip s = [] \/ trimmed p (rstrip s) = true.
Proof.
  induction s as [|x s IH] using rev_ind; [left; reflexivity |].
  intros H. rewrite rstrip_snoc. destruct (isspace x) eqn:Hx.
  - apply IH. eapply single_spaced_app_l. exact H.
  - right. apply trimmed_snoc; assumption.
Qed.

(** What the last two steps of the cleaner return is empty or trimmed. *)
Lemma trimmed_strip_collapse s :
  let t := strip (collapse_from false s) in t = [] \/ trimmed true t = true.
Proof.
  unfold strip. apply trimmed_rstrip.
  eapply single_spaced_lstrip. apply single_spaced_collapse.
Qed.

Lemma trimmed_weaken t : trimmed true t = true -> trimmed false t = true.
Proof.
  destruct t as [|x t]; simpl; [discriminate |].
  destruct (isspace x); [| auto].
  rewrite andb_false_r. discriminate.
Qed.

Lemma collapse_trimmed p t : trimmed p t = true -> collapse_from p t = t.
Proof.
  revert p. induction t as [|x t IH]; intros p; simpl; [reflexivity |].
  destruct (isspace x).
  - intros [[Hx Hp]%andb_true_iff Ht]%andb_true_iff.
    apply negb_true_iff in Hp. subst p.
    apply N.eqb_eq in Hx. subst x. f_equal. auto.
  - intros Ht. f_equal. auto.
Qed.

Lemma trimmed_last p s x : trimmed p (s ++ [x]) = true -> isspace x = false.
Proof.
  revert p. induction s as [|y s IH]; intros p; simpl.
  - destruct (isspace x); [| reflexivity].
    rewrite andb_false_r. discriminate.
  - destruct (isspace y).
    + intros [_ H]%andb_true_iff. eauto.
    + eauto.
Qed.

Lemma strip_trimmed t : trimmed true t = true -> strip t = t.
Proof.
  intros H. unfold strip.
  assert (lstrip t = t) as ->.
  { destruct t as [|x t]; simpl in *; [reflexivity |].
    destruct (isspace x); [| reflexivity].
    rewrite andb_false_r in H. discriminate. }
  destruct t as [|x t] using rev_ind; [reflexivity |].
  rewrite rstrip_snoc, (trimmed_last _ _ _ H). reflexivity.
Qed.

End Spacing.

(** ** The summary cleaners *)

Section Cleaners.
Variable L : Lib.

Lemma unescape_no_amp s :
  existsb (N.eqb 0x26) s = false -> Html.unescape L s = s.
Proof. unfold Html.unescape. intros ->. reflexivity. Qed.

(** The steps of [clean_summary] on a string that is not empty. *)
Lemma clean_summary_cons x s :
  ExportJsonl.clean_summary L (Some (x :: s)) =
  let t := strip (collapse_from false
             (Html.unescape L
                (sub L ExportJsonl.tag_re (U " ")
                   (ExportJsonl.remove_patterns L (x :: s))))) in
  if truthy (Some t) then Some t else None.
Proof.
  unfold ExportJsonl.clean_summary. cbn [truthy negb].
  cbv zeta. rewrite sub_ws. reflexivity.
Qed.

(** On a string that is not empty, the cleaner never returns the empty
    string. *)
Lemma clean_summary_not_empty x s :
  ExportJsonl.clean_summary L (Some (x :: s)) <> Some [].
Proof.
  rewrite clean_summary_cons. cbv zeta.
  destruct (strip _) as [|y t]; simpl; discriminate.
Qed.

Lemma clean_summary_None : ExportJsonl.clean_summary L None = None.
Proof. reflexivity. Qed.

(** A string that is trimmed and free of residue is returned as it is. *)
Lemma clean_summary_fixed t :
  t <> [] -> trimmed true t = true -> residue_free L t = true ->
  ExportJsonl.clean_summary L (Some t) = Some t.
Proof.
  intros Hne Htrim Hfree. destruct t as [|x t]; [congruence |].
  rewrite clean_summary_cons.
  unfold residue_free in Hfree.
  apply andb_true_iff in Hfree as [[Hpat Htag]%andb_true_iff Hamp].
  apply negb_true_iff in Htag, Hamp.
  unfold ExportJsonl.remove_patterns.
  rewrite fold_sub_no_match by exact Hpat.
  rewrite sub_no_match by exact Htag.
  rewrite unescape_no_amp by exact Hamp.
  rewrite collapse_trimmed by (apply trimmed_weaken; exact Htrim).
  rewrite strip_trimmed by exact Htrim.
  reflexivity.
Qed.

(** What the cleaner returns is trimmed. *)
Lemma clean_summary_trimmed s t :
  ExportJsonl.clean_summary L (Some s) = Some t -> t <> [] ->
  trimmed true t = true.
Proof.
  destruct s as [|x s]; [intros [= <-]; congruence |].
  rewrite clean_summary_cons. cbv zeta.
  match goal with |- context [strip (collapse_from false ?u)] =>
    destruct (trimmed_strip_collapse u) as [H | H];
    set (v := strip (collapse_from false u)) in * end.
  - rewrite H. discriminate.
  - destruct v; simpl; [discriminate |]. intros [= <-] _. exact H.
Qed.

(** The two cleaners run the same steps on every input but the empty
    string. *)
Lemma cleaners_agree s :
  s <> Some [] ->
  ExportJsonl.clean_summary L s = clean_summary_for_snapshot L s.
Proof.
  destruct s as [[|x s]|]; [congruence | reflexivity | reflexivity].
Qed.

(** For the input [read<br>more] the first pass leaves [read more], which
    the second pass removes as a pattern. *)
Lemma clean_summary_read_more :
  ExportJsonl.clean_summary L (Some (U "read<br>more")) = Some (U "read more")
  /\ ExportJsonl.clean_summary L (Some (U "read more")) = None.
Proof. split; vm_compute; reflexivity. Qed.

(** C5, as amended. A second pass of [clean_summary] changes nothing when
    the first pass returned null, or returned a text in which no boilerplate
    pattern matches, no tag is left and no [&] occurs. *)
Theorem clean_summary_idempotent_when_residue_free (s : option pystr) :
  (forall t, ExportJsonl.clean_summary L s = Some t ->
             residue_free L t = true) ->
  ExportJsonl.clean_summary L (ExportJsonl.clean_summary L s)
  = ExportJsonl.clean_summary L s.
Proof.
  intros Hfree.
  destruct (ExportJsonl.clean_summary L s) as [t|] eqn:Hs; [| reflexivity].
  destruct t as [|y t]; [reflexivity |].
  destruct s as [s|]; [| discriminate].
  apply clean_summary_fixed.
  - discriminate.
  - eapply clean_summary_trimmed; [exact Hs | discriminate].
  - apply Hfree. reflexivity.
Qed.

(** C6. The code returns the empty string for the empty string: the test
    [if not text] hands [text] back, which is [""] and not [None]. (The
    input null comes back as null.) *)
Theorem clean_summary_empty_string_returned :
  ExportJsonl.clean_summary L (Some []) = Some []
  /\ ExportJsonl.clean_summary L None = None.
Proof. split; reflexivity. Qed.

(** C7. The two scenarios of the specification: the cookie banner cleans to
    null, and ["I AGREE <b>Subscribe</b> now"] cleans to ["now"]. *)
Theorem clean_summary_scenarios :
  ExportJsonl.clean_summary L
    (Some (U "<p>We use cookies to ensure the best experience. Read more</p>"))
  = None
  /\ ExportJsonl.clean_summary L (Some (U "I AGREE <b>Subscribe</b> now"))
     = Some (U "now").
Proof. split; vm_compute; reflexivity. Qed.

(** C10. On the empty string the two cleaners differ: the exporter's returns
    the empty string, the snapshot's returns null. *)
Theorem cleaners_differ_on_empty_string :
  ExportJsonl.clean_summary L (Some []) = Some []
  /\ clean_summary_for_snapshot L (Some []) = None
  /\ ExportJsonl.clean_summary L None = clean_summary_for_snapshot L None.
Proof. repeat split. Qed.

End Cleaners.

(** C5 at a concrete input: the premise holds of
    ["I AGREE <b>Subscribe</b> now"], whose cleaned text is ["now"]. *)
Lemma clean_summary_idempotent_witness :
  (forall t,
     ExportJsonl.clean_summary AsciiLib.lib
       (Some (U "I AGREE <b>Subscribe</b> now")) = Some t ->
     residue_free AsciiLib.lib t = true)
  /\ ExportJsonl.clean_summary AsciiLib.lib
       (ExportJsonl.clean_summary AsciiLib.lib
          (Some (U "I AGREE <b>Subscribe</b> now")))
     = ExportJsonl.clean_summary AsciiLib.lib
         (Some (U "I AGREE <b>Subscribe</b> now")).
Proof.
  assert (forall t,
     ExportJsonl.clean_summary AsciiLib.lib
       (Some (U "I AGREE <b>Subscribe</b> now")) = Some t ->
     residue_free AsciiLib.lib t = true) as H.
  { intros t Ht. vm_compute in Ht. injection Ht as <-.
    vm_compute. reflexivity. }
  split; [exact H |].
  exact (clean_summary_idempotent_when_residue_free AsciiLib.lib _ H).
Defined.

(** C5 as stated fails: cleaning ["read<br>more"] gives ["read more"], and
    cleaning that gives null. *)
Lemma clean_summary_not_idempotent :
  ExportJsonl.clean_summary AsciiLib.lib
    (ExportJsonl.clean_summary AsciiLib.lib (Some (U "read<br>more")))
  <> ExportJsonl.clean_summary AsciiLib.lib (Some (U "read<br>more")).
Proof. vm_compute. discriminate. Qed.

(** ** The item store *)

Section Store.
Variable utcnow : nat -> datetime.

Lemma existsb_filter {A : Type} (f : A -> bool) (l : list A) :
  existsb f l = true <-> (0 < length (List.filter f l))%nat.
Proof.
  induction l as [|x l IH]; simpl.
  - split; [discriminate | lia].
  - destruct (f x); simpl; [split; [lia | reflexivity] | exact IH].
Qed.

Lemma guid_taken_count t g :
  guid_taken t (Some g) = true <-> (0 < guid_count g t)%nat.
Proof. apply existsb_filter. Qed.

Lemma guid_count_snoc g t r :
  guid_count g (t ++ [r]) =
  (guid_count g t + if bool_decide (guid r = Some g) then 1 else 0)%nat.
Proof.
  unfold guid_count. rewrite List.filter_app, length_app. simpl.
  destruct (bool_decide (guid r = Some g)); reflexivity.
Qed.

(** A successful INSERT keeps the guids of the table unique. *)
Lemma insert_unique t r t' :
  unique_guids t -> insert t r = Some t' -> unique_guids t'.
Proof.
  unfold insert. intros Hu H g.
  destruct (guid_taken t (guid r)) eqn:Htaken; [discriminate |].
  injection H as <-. rewrite guid_count_snoc. specialize (Hu g).
  destruct (bool_decide_reflect (guid r = Some g)) as [Hg|]; [| lia].
  rewrite Hg in Htaken.
  destruct (guid_count g t) eqn:Hc; [lia |].
  assert (guid_taken t (Some g) = true) by (apply guid_taken_count; lia).
  congruence.
Qed.

Lemma save_item_unique st it :
  unique_guids (items st.1) -> unique_guids (items (save_item utcnow st it).1).
Proof.
  destruct st as [db n]. unfold save_item. simpl. intros Hu.
  destruct (insert _ _) eqn:Hi; simpl; [| exact Hu].
  eapply insert_unique; eauto.
Qed.

(** [save_items] keeps the guids of the table unique, whatever the batch. *)
Lemma save_items_unique db its :
  unique_guids (items db) -> unique_guids (items (save_items utcnow db its).1).
Proof.
  unfold save_items. generalize 0%nat as n. revert db.
  induction its as [|it its IH]; intros db n Hu; cbn [fold_left];
    [exact Hu |].
  pose proof (save_item_unique (db, n) it Hu) as Hu'.
  destruct (save_item utcnow (db, n) it) as [db' n']. apply IH. exact Hu'.
Qed.

Lemma unique_guids_nil : unique_guids [].
Proof. intros g. unfold guid_count. simpl. lia. Qed.

(** The INSERT of an item whose guid is stored already is passed over. *)
Lemma save_item_known db n it :
  guid_taken (items db) (get it "guid") = true ->
  save_item utcnow (db, n) it = (RssDb (items db) (S (clock db)), n).
Proof. unfold save_item, insert. cbn [guid]. intros ->. reflexivity. Qed.

(** After the attempt, the guid of the item is stored. *)
Lemma save_item_taken db n it g :
  get it "guid" = Some g ->
  guid_taken (items (save_item utcnow (db, n) it).1) (Some g) = true.
Proof.
  intros Hg. unfold save_item, insert. cbn [guid]. rewrite Hg.
  destruct (guid_taken (items db) (Some g)) eqn:Ht; simpl; [exact Ht |].
  rewrite existsb_app. simpl. rewrite bool_decide_true by reflexivity.
  rewrite orb_true_r. reflexivity.
Qed.

(** C1. An item with a guid that is saved twice is stored once: the second
    attempt collides, adds nothing to the count that [save_items] returns
    and leaves the table as the first attempt left it. *)
Theorem save_items_twice_one_row (db : rssdb) (it : item) (g : pystr) :
  unique_guids (items db) ->
  get it "guid" = Some g ->
  let first := save_items utcnow db [it] in
  let second := save_items utcnow first.1 [it] in
  guid_count g (items second.1) = 1%nat
  /\ second.2 = 0%nat
  /\ items second.1 = items first.1.
Proof.
  intros Hu Hg first second.
  assert (guid_taken (items first.1) (Some g) = true) as Htaken.
  { apply save_item_taken. exact Hg. }
  assert (second = (RssDb (items first.1) (S (clock first.1)), 0%nat)) as ->.
  { unfold second, save_items. cbn [fold_left].
    apply save_item_known. rewrite Hg. exact Htaken. }
  cbn [fst snd items]. repeat split.
  pose proof (save_items_unique db [it] Hu g) as Hle. fold first in Hle.
  apply guid_taken_count in Htaken. lia.
Qed.

End Store.

(** C1 at a concrete input: the item with guid ["A"] saved twice into the
    empty table. *)
Lemma save_items_twice_witness :
  let utcnow := fun n => Datetime 2025 10 25 12 0 0 (N.of_nat n) in
  let it : item := {[ "guid" := Some (U "A") ]} in
  let first := save_items utcnow (RssDb [] 0) [it] in
  let second := save_items utcnow first.1 [it] in
  guid_count (U "A") (items second.1) = 1%nat
  /\ second.2 = 0%nat
  /\ items second.1 = items first.1.
Proof.
  intros utcnow it.
  apply (save_items_twice_one_row utcnow (RssDb [] 0) it (U "A")).
  - exact unique_guids_nil.
  - reflexivity.
Defined.

(** The scenario of the specification: a feed of two items, fetched twice. *)
Example save_items_refetch :
  let utcnow := fun n => Datetime 2025 10 25 12 0 0 (N.of_nat (S n)) in
  let feed : list item :=
    [ {[ "guid" := Some (U "A") ]}; {[ "guid" := Some (U "B") ]} ] in
  let first := save_items utcnow (RssDb [] 0) feed in
  let second := save_items utcnow first.1 feed in
  first.2 = 2%nat /\ second.2 = 0%nat /\ length (items second.1) = 2%nat.
Proof. vm_compute. repeat split. Qed.

(** ** The time stamps *)

Lemma length_zero_padded w n : length (zero_padded w n) = w.
Proof.
  revert n. induction w as [|w IH]; intros n; simpl; [reflexivity |].
  rewrite length_app, IH. simpl. lia.
Qed.

(** The width of a time stamp depends on the microseconds of the reading. *)
Lemma length_isoformat d :
  length (isoformat d ++ U "Z") =
  if microsecond d =? 0 then 20%nat else 27%nat.
Proof.
  unfold isoformat.
  destruct (microsecond d =? 0);
    rewrite !length_app, !length_zero_padded; reflexivity.
Qed.

(** C9. Two readings of the clock within the second 12:00:00, the first on
    the full second: the stored time stamps have the widths 20 and 27, the
    later one is the smaller string, the query orders the later row first,
    and the threshold ["2025-10-25T12:00:00Z"] leaves the later row out. *)
Theorem fetched_at_order_broken_on_full_second :
  let utcnow := fun n => Datetime 2025 10 25 12 0 0 (N.of_nat n) in
  let feed : list item :=
    [ {[ "guid" := Some (U "A") ]}; {[ "guid" := Some (U "B") ]} ] in
  let db := (save_items utcnow (RssDb [] 0) feed).1 in
  map fetched_at (items db)
  = [ U "2025-10-25T12:00:00Z"; U "2025-10-25T12:00:00.000001Z" ]
  /\ datetime_leb (utcnow 0%nat) (utcnow 1%nat) = true
  /\ str_leb (U "2025-10-25T12:00:00Z") (U "2025-10-25T12:00:00.000001Z")
     = false
  /\ map guid (order_by_fetched_at (items db)) = [Some (U "B"); Some (U "A")]
  /\ map guid (where_fetched_ge (U "2025-10-25T12:00:00Z") (items db))
     = [Some (U "A")].
Proof. vm_compute. repeat split. Qed.

(** ** The query of the exporter *)

Lemma str_leb_total s t : str_leb s t = true \/ str_leb t s = true.
Proof.
  revert t. induction s as [|a s IH]; intros [|b t]; simpl; auto.
  destruct (IH t) as [H | H]; rewrite H;
    destruct (N.ltb_spec a b), (N.ltb_spec b a),
             (N.eqb_spec a b), (N.eqb_spec b a); simpl; auto; lia.
Qed.

Lemma str_leb_trans s t u :
  str_leb s t = true -> str_leb t u = true -> str_leb s u = true.
Proof.
  revert t u. induction s as [|a s IH]; intros [|b t] [|c u]; simpl; auto;
    try discriminate.
  destruct (N.ltb_spec a b), (N.ltb_spec b c), (N.ltb_spec a c),
           (N.eqb_spec a b), (N.eqb_spec b c), (N.eqb_spec a c);
    simpl; auto; try discriminate; try lia.
  apply IH.
Qed.

#[local] Instance fetched_le_total : Total fetched_le.
Proof. intros r1 r2. apply str_leb_total. Qed.

#[local] Instance fetched_le_trans : Transitive fetched_le.
Proof. intros r1 r2 r3. apply str_leb_trans. Qed.

Lemma order_by_sorted t : Sorted fetched_le (order_by_fetched_at t).
Proof. apply Sorted_merge_sort. apply _. Qed.

Lemma order_by_perm t : Permutation (order_by_fetched_at t) t.
Proof. apply merge_sort_Permutation. Qed.

Lemma Sorted_take {A : Type} (R : relation A) n l :
  Sorted R l -> Sorted R (take n l).
Proof.
  revert n. induction l as [|x l IH]; intros [|n] H; simpl; auto.
  apply Sorted_inv in H as [Hs Hh]. constructor; [auto |].
  destruct Hh; destruct n; simpl; auto.
Qed.

(** The empty threshold keeps every row. *)
Lemma where_fetched_ge_nil t : where_fetched_ge [] t = t.
Proof.
  unfold where_fetched_ge. cbn [str_leb].
  induction t as [|r t IH]; simpl; congruence.
Qed.

(** A threshold above every stored time stamp keeps no row. *)
Lemma where_fetched_ge_above th t :
  Forall (fun r => str_leb th (fetched_at r) = false) t ->
  where_fetched_ge th t = [].
Proof.
  unfold where_fetched_ge. induction 1 as [|r t Hr _ IH]; simpl; [done |].
  rewrite Hr. exact IH.
Qed.

(** The rows that the query selects before the cap. *)
Lemma select_since_no_limit t since :
  ExportJsonl.select_since t since None =
  Ok (order_by_fetched_at
        (match since with Some th => where_fetched_ge th t | None => t end)).
Proof.
  unfold ExportJsonl.select_since.
  destruct since as [[|c th]|]; simpl; rewrite ?where_fetched_ge_nil; done.
Qed.

Lemma select_since_limit t since k :
  (0 < k < 2 ^ 63)%Z ->
  ExportJsonl.select_since t since (Some k) =
  Ok (take (Z.to_nat k)
        (order_by_fetched_at
           (match since with Some th => where_fetched_ge th t | None => t end))).
Proof.
  intros Hk. pose proof (select_since_no_limit t since) as Hall.
  unfold ExportJsonl.select_since in *. cbv zeta in *.
  injection Hall as ->.
  destruct (Z.eqb_spec k 0); [lia |].
  unfold bind_int, limit_rows.
  destruct (Z.leb_spec (- 2 ^ 63) k); [| lia].
  destruct (Z.ltb_spec k (2 ^ 63)); [| lia].
  simpl. destruct (Z.ltb_spec k 0); [lia | reflexivity].
Qed.

(** A limit of zero is no limit. *)
Lemma select_since_limit_zero t since :
  ExportJsonl.select_since t since (Some 0%Z)
  = ExportJsonl.select_since t since None.
Proof. reflexivity. Qed.

Section Exporter.
Variable L : Lib.

(** C2, as amended. The query returns its rows in non-decreasing order of
    [fetched_at]; without a cap they are, for a threshold, exactly the rows
    with [fetched_at >= threshold]; a threshold above every stored
    [fetched_at] gives no row and a written count of zero; and a limit [k]
    with [0 < k < 2^63] cuts the ordered selection down to its first [k]
    rows, none of which comes after a row that was cut. *)
Theorem select_since_ordered_filtered_capped
        (t : table) (since : option pystr) (limit : option Z) :
  capping limit ->
  exists rs all,
    ExportJsonl.select_since t since limit = Ok rs
    /\ ExportJsonl.select_since t since None = Ok all
    /\ ExportJsonl.export L t since limit
       = Ok (map (ExportJsonl.project L) rs, length rs)
    /\ Sorted fetched_le rs
    /\ (forall th, since = Some th ->
          Permutation all (where_fetched_ge th t)
          /\ (Forall (fun r => str_leb th (fetched_at r) = false) t ->
              rs = []))
    /\ (since = None -> Permutation all t)
    /\ (limit = None -> rs = all)
    /\ (forall k, limit = Some k ->
          rs = take (Z.to_nat k) all
          /\ forall r r', r ∈ rs -> r' ∈ drop (Z.to_nat k) all ->
                          fetched_le r r').
Proof.
  intros Hcap.
  set (sel := match since with
              | Some th => where_fetched_ge th t
              | None => t
              end).
  set (all := order_by_fetched_at sel).
  set (rs := match limit with
             | Some k => take (Z.to_nat k) all
             | None => all
             end).
  assert (ExportJsonl.select_since t since limit = Ok rs) as Hsel.
  { destruct limit as [k|]; [apply select_since_limit; exact Hcap |].
    apply select_since_no_limit. }
  exists rs, all. split; [exact Hsel |].
  split; [apply select_since_no_limit |].
  split; [unfold ExportJsonl.export; rewrite Hsel; reflexivity |].
  split.
  { unfold rs. destruct limit; [apply Sorted_take |]; apply order_by_sorted. }
  split.
  { intros th ->. split; [apply order_by_perm |].
    intros Habove. unfold rs, all, sel.
    rewrite where_fetched_ge_above by exact Habove.
    change (order_by_fetched_at []) with (@nil row).
    destruct limit; [apply take_nil | reflexivity]. }
  split; [intros ->; apply order_by_perm |].
  split; [intros ->; reflexivity |].
  intros k ->. split; [reflexivity |].
  intros r r' Hr Hr'.
  assert (StronglySorted fetched_le all) as Hss.
  { apply StronglySorted_merge_sort; apply _. }
  rewrite <- (take_drop (Z.to_nat k) all) in Hss.
  eapply StronglySorted_app_1_elem_of; eauto.
Qed.

End Exporter.

(** C2 at a concrete input: two stored rows, the threshold of the first and
    a limit of one. *)
Lemma select_since_witness :
  let t := [ Row (Some (U "B")) None None None None
                 (U "2025-10-25T12:00:00.000002Z");
             Row (Some (U "A")) None None None None
                 (U "2025-10-25T12:00:00.000001Z") ] in
  capping (Some 1%Z)
  /\ exists rs all,
    ExportJsonl.select_since t (Some (U "2025-10-25T12:00:00.000001Z"))
      (Some 1%Z) = Ok rs
    /\ ExportJsonl.select_since t (Some (U "2025-10-25T12:00:00.000001Z"))
         None = Ok all
    /\ ExportJsonl.export AsciiLib.lib t
         (Some (U "2025-10-25T12:00:00.000001Z")) (Some 1%Z)
       = Ok (map (ExportJsonl.project AsciiLib.lib) rs, length rs)
    /\ Sorted fetched_le rs
    /\ (forall th, Some (U "2025-10-25T12:00:00.000001Z") = Some th ->
          Permutation all (where_fetched_ge th t)
          /\ (Forall (fun r => str_leb th (fetched_at r) = false) t ->
              rs = []))
    /\ (Some (U "2025-10-25T12:00:00.000001Z") = None -> Permutation all t)
    /\ (Some 1%Z = None -> rs = all)
    /\ (forall k, Some 1%Z = Some k ->
          rs = take (Z.to_nat k) all
          /\ forall r r', r ∈ rs -> r' ∈ drop (Z.to_nat k) all ->
                          fetched_le r r').
Proof.
  intros t.
  assert (capping (Some 1%Z)) as Hcap by (simpl; lia).
  split; [exact Hcap |].
  exact (select_since_ordered_filtered_capped AsciiLib.lib t _ _ Hcap).
Defined.

(** C2 as stated fails for the limit 0: the exporter leaves the LIMIT
    clause out and writes every row, here one. *)
Lemma export_limit_zero_writes_all :
  ExportJsonl.export AsciiLib.lib
    [ Row (Some (U "A")) None None None None
          (U "2025-10-25T12:00:00.000001Z") ]
    None (Some 0%Z)
  = Ok ([ Row (Some (U "A")) None None None None
              (U "2025-10-25T12:00:00.000001Z") ], 1%nat).
Proof. vm_compute. reflexivity. Qed.

(** ** The feed parser *)

Set Warnings "-clear-no-such-hyp".

Lemma foldM_app {A B : Type} (f : B -> A -> result B) xs ys acc :
  foldM f (xs ++ ys) acc = bind (foldM f xs acc) (foldM f ys).
Proof.
  revert acc. induction xs as [|x xs IH]; intros acc; simpl; [reflexivity |].
  destruct (f acc x); simpl; auto.
Qed.

(** A property of the record that every turn of the loop keeps holds after
    the loop. *)
Lemma foldM_collect_inv (P : item -> Prop) cs d d' :
  (forall d c d', P d -> collect d c = Ok d' -> P d') ->
  P d -> foldM collect cs d = Ok d' -> P d'.
Proof.
  intros Hstep. revert d. induction cs as [|c cs IH]; intros d Hd; simpl.
  - intros [= <-]. exact Hd.
  - destruct (collect d c) as [d1|] eqn:Hc; simpl; [| discriminate]. eauto.
Qed.

(** The loop ends without an exception when every tag has a local name. *)
Lemma foldM_collect_total cs d :
  Forall tag_ok cs -> exists d', foldM collect cs d = Ok d'.
Proof.
  intros Hcs. revert d. induction Hcs as [|c cs [n Hn] _ IH]; intros d; simpl.
  - eauto.
  - unfold collect at 1. rewrite Hn. simpl. apply IH.
Qed.

(** The case analysis of [collect] on the local name of the child. *)
Ltac collect_cases :=
  unfold collect, has_name;
  destruct (_localname (tag _)) as [?n|]; simpl; [| discriminate];
  intros [= <-]; intros;
  repeat match goal with
         | H : bool_decide _ = false |- _ => apply bool_decide_eq_false in H
         | H : bool_decide _ = true |- _ => apply bool_decide_eq_true in H
         end;
  repeat case_bool_decide; unfold setdefault in *; repeat case_match;
  simplify_map_eq; try done; try set_solver.

Lemma collect_title_other d c d' :
  collect d c = Ok d' -> has_name ["title"] c = false ->
  d' !! "title" = d !! "title".
Proof. collect_cases. Qed.

Lemma collect_title_hit d c d' :
  collect d c = Ok d' -> has_name ["title"] c = true ->
  d' !! "title" = Some (stripped_text c).
Proof. collect_cases. Qed.

Lemma collect_summary_other d c d' :
  collect d c = Ok d' ->
  has_name ["description"; "summary"; "content"] c = false ->
  d' !! "summary" = d !! "summary".
Proof. collect_cases. Qed.

Lemma collect_summary_hit d c d' :
  collect d c = Ok d' ->
  has_name ["description"; "summary"; "content"] c = true ->
  d !! "summary" = None ->
  d' !! "summary" = Some (stripped_text c).
Proof. collect_cases. Qed.

Lemma collect_summary_keep d c d' v :
  collect d c = Ok d' -> d !! "summary" = Some v -> d' !! "summary" = Some v.
Proof. collect_cases. Qed.

Lemma collect_published_other d c d' :
  collect d c = Ok d' ->
  has_name ["pubDate"; "published"; "updated"] c = false ->
  d' !! "published" = d !! "published".
Proof. collect_cases. Qed.

Lemma collect_published_hit d c d' :
  collect d c = Ok d' ->
  has_name ["pubDate"; "published"; "updated"] c = true ->
  d !! "published" = None ->
  d' !! "published" = Some (stripped_text c).
Proof. collect_cases. Qed.

Lemma collect_published_keep d c d' v :
  collect d c = Ok d' -> d !! "published" = Some v ->
  d' !! "published" = Some v.
Proof. collect_cases. Qed.

Lemma collect_link_other d c d' :
  collect d c = Ok d' -> has_name ["link"] c = false ->
  d' !! "link" = d !! "link".
Proof. collect_cases. Qed.

Lemma collect_link_hit d c d' :
  collect d c = Ok d' -> has_name ["link"] c = true ->
  d !! "link" = None ->
  d' !! "link" = Some (por (attrib c !! U "href") (stripped_text c)).
Proof. collect_cases. Qed.

Lemma collect_link_keep d c d' v :
  collect d c = Ok d' -> d !! "link" = Some v -> d' !! "link" = Some v.
Proof. collect_cases. Qed.

(** *** A key that only [setdefault] writes is decided by the first child
        that bears one of its names *)

Section FirstWins.
Variable key : string.
Variable names : list string.
Variable value : elem -> option pystr.
Hypothesis other : forall d c d',
  collect d c = Ok d' -> has_name names c = false -> d' !! key = d !! key.
Hypothesis hit : forall d c d',
  collect d c = Ok d' -> has_name names c = true -> d !! key = None ->
  d' !! key = Some (value c).
Hypothesis keep : forall d c d' v,
  collect d c = Ok d' -> d !! key = Some v -> d' !! key = Some v.

Lemma foldM_collect_other cs d d' :
  Forall (fun c => has_name names c = false) cs ->
  foldM collect cs d = Ok d' -> d' !! key = d !! key.
Proof.
  intros Hcs. revert d. induction Hcs as [|c cs Hc _ IH]; intros d; simpl.
  - intros [= <-]. reflexivity.
  - destruct (collect d c) as [d1|] eqn:H1; simpl; [| discriminate].
    intros H. rewrite (IH _ H). eauto.
Qed.

Lemma foldM_collect_keep cs d d' v :
  d !! key = Some v -> foldM collect cs d = Ok d' -> d' !! key = Some v.
Proof.
  intros Hd. apply (foldM_collect_inv (fun d => d !! key = Some v)); eauto.
Qed.

Lemma first_child_wins pre c post d :
  Forall (fun c' => has_name names c' = false) pre ->
  has_name names c = true ->
  foldM collect (pre ++ c :: post) ∅ = Ok d ->
  d !! key = Some (value c).
Proof.
  intros Hpre Hc. rewrite foldM_app.
  destruct (foldM collect pre ∅) as [d1|] eqn:H1; simpl; [| discriminate].
  destruct (collect d1 c) as [d2|] eqn:H2; simpl; [| discriminate].
  apply foldM_collect_keep. eapply hit; eauto.
  rewrite (foldM_collect_other _ _ _ Hpre H1). apply lookup_empty.
Qed.

End FirstWins.

(** The title is assigned, not defaulted: the last [title] child decides. *)
Lemma last_title_wins pre c post d0 d :
  Forall (fun c' => has_name ["title"] c' = false) post ->
  has_name ["title"] c = true ->
  foldM collect (pre ++ c :: post) d0 = Ok d ->
  d !! "title" = Some (stripped_text c).
Proof.
  intros Hpost Hc. rewrite foldM_app.
  destruct (foldM collect pre d0) as [d1|]; simpl; [| discriminate].
  destruct (collect d1 c) as [d2|] eqn:H2; simpl; [| discriminate].
  intros H.
  rewrite (foldM_collect_other "title" ["title"] collect_title_other
             _ _ _ Hpost H).
  eapply collect_title_hit; eauto.
Qed.

(** *** The fallbacks *)

Lemma fallbacks_lookup d k :
  k <> "guid" -> k <> "title" -> fallbacks d !! k = d !! k.
Proof.
  intros Hg Ht. unfold fallbacks, setdefault.
  repeat case_match; simplify_map_eq; done.
Qed.

Lemma fallbacks_get d k :
  k <> "guid" -> k <> "title" -> get (fallbacks d) k = get d k.
Proof. intros. unfold get. rewrite fallbacks_lookup; done. Qed.

(** An empty guid is replaced by the link. *)
Lemma fallbacks_guid d :
  get (fallbacks d) "guid" =
  if truthy (get d "guid") then get d "guid" else get d "link".
Proof.
  unfold fallbacks, setdefault, get.
  destruct (truthy (default None (d !! "guid"))) eqn:Hg; simpl;
    repeat case_match; simplify_map_eq; done.
Qed.

(** The title falls back to the summary, or to the placeholder, when the
    record has no key [title]. *)
Lemma fallbacks_title_absent d :
  d !! "title" = None ->
  get (fallbacks d) "title" = por (get d "summary") (Some (U "(no title)")).
Proof.
  intros Ht. unfold fallbacks, setdefault, get.
  repeat case_match; simplify_map_eq; done.
Qed.

(** A key [title] that the loop has set is left as it is, also when its
    value is [None]. *)
Lemma fallbacks_title_present d v :
  d !! "title" = Some v -> get (fallbacks d) "title" = v.
Proof.
  intros Ht. unfold fallbacks, setdefault, get.
  repeat case_match; simplify_map_eq; done.
Qed.

Lemma parse_entry_Ok e d :
  parse_entry e = Ok d <->
  exists d0, foldM collect (children e) ∅ = Ok d0 /\ d = fallbacks d0.
Proof.
  unfold parse_entry.
  destruct (foldM collect (children e) ∅) as [d0|]; simpl; split.
  - intros [= <-]. eauto.
  - intros (d1 & [= <-] & ->). reflexivity.
  - discriminate.
  - intros (d1 & H & _). discriminate.
Qed.

Lemma parse_entry_total e :
  Forall tag_ok (children e) -> exists d, parse_entry e = Ok d.
Proof.
  intros H. destruct (foldM_collect_total _ ∅ H) as [d0 Hd0].
  exists (fallbacks d0). apply parse_entry_Ok. eauto.
Qed.

(** C4, as amended. In the record of an entry whose children all have a
    local name: the title is the text of the last [title] child; a first
    [description], [summary] or [content] child with a text gives the
    summary, whatever follows; the first [pubDate], [published] or [updated]
    child gives [published]. *)
Theorem extraction_of_repeated_children (e : elem) :
  Forall tag_ok (children e) ->
  exists d,
    parse_entry e = Ok d
    /\ (forall pre c post,
          children e = pre ++ c :: post ->
          has_name ["title"] c = true ->
          Forall (fun c' => has_name ["title"] c' = false) post ->
          get d "title" = stripped_text c)
    /\ (forall pre c post x,
          children e = pre ++ c :: post ->
          Forall (fun c' =>
                    has_name ["description"; "summary"; "content"] c' = false)
                 pre ->
          has_name ["description"; "summary"; "content"] c = true ->
          stripped_text c = Some x ->
          get d "summary" = Some x)
    /\ (forall pre c post,
          children e = pre ++ c :: post ->
          Forall (fun c' =>
                    has_name ["pubDate"; "published"; "updated"] c' = false)
                 pre ->
          has_name ["pubDate"; "published"; "updated"] c = true ->
          get d "published" = stripped_text c).
Proof.
  intros Hok. destruct (parse_entry_total e Hok) as [d Hd].
  exists d. split; [exact Hd |].
  apply parse_entry_Ok in Hd as (d0 & Hd0 & ->).
  split; [| split].
  - intros pre c post Hcs Hc Hpost. rewrite Hcs in Hd0.
    apply fallbacks_title_present.
    eapply last_title_wins; eauto.
  - intros pre c post x Hcs Hpre Hc Hx. rewrite Hcs in Hd0.
    rewrite fallbacks_get by done. unfold get.
    rewrite (first_child_wins "summary" _ stripped_text
               collect_summary_other collect_summary_hit
               collect_summary_keep _ _ _ _ Hpre Hc Hd0).
    exact Hx.
  - intros pre c post Hcs Hpre Hc. rewrite Hcs in Hd0.
    rewrite fallbacks_get by done. unfold get.
    rewrite (first_child_wins "published" _ stripped_text
               collect_published_other collect_published_hit
               collect_published_keep _ _ _ _ Hpre Hc Hd0).
    reflexivity.
Qed.

(** *** Local names *)

Lemma after_first_app sep ns rest :
  sep ∉ ns -> after_first sep (ns ++ sep :: rest) = Ok rest.
Proof.
  induction ns as [|c ns IH]; simpl; intros Hns.
  - rewrite N.eqb_refl. reflexivity.
  - apply not_elem_of_cons in Hns as [Hc Hns].
    destruct (N.eqb_spec c sep); [congruence | auto].
Qed.

(** A name in a namespace and the same name in none have the same local
    name. *)
Lemma _localname_named local t :
  named local t -> startswith (U "{") (U local) = false ->
  _localname t = Ok (U local).
Proof.
  intros [-> | (ns & Hns & ->)] Hlocal.
  - unfold _localname. rewrite Hlocal. reflexivity.
  - unfold qualified, _localname.
    change (startswith (U "{") (0x7B :: (ns ++ 0x7D :: U local))) with true.
    cbn [after_first]. change (0x7B =? 0x7D) with false. cbv iota.
    apply after_first_app. exact Hns.
Qed.

Lemma has_name_link c :
  named "link" (tag c) -> has_name ["link"] c = true.
Proof.
  intros H. unfold has_name.
  rewrite (_localname_named "link" _ H) by reflexivity. reflexivity.
Qed.

Lemma has_name_entry e :
  named "item" (tag e) \/ named "entry" (tag e) ->
  has_name ["item"; "entry"] e = true.
Proof.
  intros [H | H]; unfold has_name.
  - rewrite (_localname_named "item" _ H) by reflexivity. reflexivity.
  - rewrite (_localname_named "entry" _ H) by reflexivity. reflexivity.
Qed.

Lemma strip_nil : strip [] = [].
Proof. reflexivity. Qed.

Lemma stripped_text_Some c X :
  strip <$> text c = Some X -> X <> [] -> stripped_text c = Some X.
Proof.
  unfold stripped_text. destruct (text c) as [T|]; [| discriminate].
  cbn [fmap option_fmap option_map]. intros [= <-] HX.
  destruct T as [|x T]; [rewrite strip_nil in HX; congruence |].
  cbn [truthy andb]. destruct (strip (x :: T)); [congruence | reflexivity].
Qed.

(** The first [link] child of an entry decides the link of its record: a
    non-empty [href] is the link; without one, the text of the child,
    trimmed and not empty, is the link. *)
Lemma parse_entry_link
      (e : elem) (pre : list elem) (c : elem) (post : list elem) (X : pystr) :
  children e = pre ++ c :: post ->
  Forall tag_ok (children e) ->
  Forall (fun c' => has_name ["link"] c' = false) pre ->
  named "link" (tag c) ->
  X <> [] ->
  attrib c !! U "href" = Some X
  \/ (truthy (attrib c !! U "href") = false /\ strip <$> text c = Some X) ->
  exists d, parse_entry e = Ok d /\ get d "link" = Some X.
Proof.
  intros Hcs Hok Hpre Hc HX Hval.
  destruct (parse_entry_total e Hok) as [d Hd].
  exists d. split; [exact Hd |].
  apply parse_entry_Ok in Hd as (d0 & Hd0 & ->). rewrite Hcs in Hd0.
  rewrite fallbacks_get by done. unfold get.
  rewrite (first_child_wins "link" _
             (fun c => por (attrib c !! U "href") (stripped_text c))
             collect_link_other collect_link_hit collect_link_keep
             _ _ _ _ Hpre (has_name_link _ Hc) Hd0).
  simpl. destruct Hval as [-> | [Hhref Htext]].
  - unfold por. destruct X; [congruence | reflexivity].
  - unfold por. rewrite Hhref. apply stripped_text_Some; assumption.
Qed.

(** *** The walk over the document *)

Lemma iter_unfold e : iter e = e :: flat_map iter (children e).
Proof.
  destruct e as [t a x cs]. reflexivity.
Qed.

Lemma elem_nested_ind (P : elem -> Prop) :
  (forall t a x cs, Forall P cs -> P (Elem t a x cs)) -> forall e, P e.
Proof.
  intros H. fix IH 1. intros [t a x cs]. apply H.
  induction cs as [|c cs IHcs]; constructor; [apply IH | exact IHcs].
Qed.

Lemma in_iter_self e : In e (iter e).
Proof. rewrite iter_unfold. left. reflexivity. Qed.

(** The children of an element of the walk are elements of the walk below
    the root. *)
Lemma children_in_walk root :
  forall e c, In e (iter root) -> In c (children e) ->
              In c (findall_descendants root).
Proof.
  unfold findall_descendants.
  induction root as [t a x cs IH] using elem_nested_ind.
  intros e c He Hc. rewrite iter_unfold in *. cbn [tail children] in *.
  apply in_flat_map. destruct He as [<- | He].
  - exists c. split; [exact Hc | apply in_iter_self].
  - apply in_flat_map in He as (c0 & Hc0 & He).
    exists c0. split; [exact Hc0 |].
    rewrite Forall_forall in IH. specialize (IH c0).
    rewrite <- list_elem_of_In in Hc0. specialize (IH Hc0 e c He Hc).
    rewrite iter_unfold in *. right. exact IH.
Qed.

Lemma children_tag_ok root :
  Forall tag_ok (findall_descendants root) ->
  forall e, In e (findall_descendants root) -> Forall tag_ok (children e).
Proof.
  intros Hok e He. apply Forall_forall. intros c Hc.
  rewrite Forall_forall in Hok. apply Hok.
  apply list_elem_of_In. apply list_elem_of_In in Hc.
  eapply children_in_walk; [| exact Hc].
  unfold findall_descendants in He. rewrite iter_unfold in *. right.
  exact He.
Qed.

(** [parse_rss] returns, in the order of the document, the record of every
    [item] and [entry] element below the root, provided every tag of the
    document has a local name. *)
Lemma parse_rss_entries root :
  Forall tag_ok (findall_descendants root) ->
  exists its,
    parse_rss root = Ok its
    /\ Forall2 (fun e d => parse_entry e = Ok d)
         (List.filter (has_name ["item"; "entry"]) (findall_descendants root))
         its.
Proof.
  intros Hok. pose proof (children_tag_ok root Hok) as Hch.
  unfold parse_rss. revert Hok Hch.
  generalize (findall_descendants root) as es.
  cut (forall es acc,
         Forall tag_ok es ->
         (forall e, In e es -> Forall tag_ok (children e)) ->
         exists its,
           foldM (fun its e =>
                    bind (_localname (tag e)) (fun name =>
                      if bool_decide (name ∈ [U "item"; U "entry"])
                      then bind (parse_entry e)
                                (fun data => Ok (its ++ [data]))
                      else Ok its)) es acc = Ok (acc ++ its)
           /\ Forall2 (fun e d => parse_entry e = Ok d)
                (List.filter (has_name ["item"; "entry"]) es) its).
  { intros H es Hok Hch. destruct (H es [] Hok Hch) as (its & H1 & H2).
    exists its. split; assumption. }
  induction es as [|e es IH]; intros acc Hok Hch.
  - exists []. rewrite app_nil_r. split; [reflexivity | constructor].
  - apply Forall_cons in Hok as [[n Hn] Hok].
    cbn [foldM List.filter]. unfold has_name at 1. rewrite Hn. cbn [bind].
    change (map U ["item"; "entry"]) with [U "item"; U "entry"].
    destruct (bool_decide (n ∈ [U "item"; U "entry"])).
    + destruct (parse_entry_total e) as [d Hd]; [apply Hch; left; done |].
      rewrite Hd. cbn [bind].
      destruct (IH (acc ++ [d]) Hok) as (its & H1 & H2).
      { intros e' He'. apply Hch. right. exact He'. }
      exists (d :: its). rewrite H1, <- app_assoc. split; [reflexivity |].
      constructor; assumption.
    + destruct (IH acc Hok) as (its & H1 & H2).
      { intros e' He'. apply Hch. right. exact He'. }
      exists its. split; assumption.
Qed.

Lemma Forall2_In_left {A B : Type} (P : A -> B -> Prop) l k x :
  Forall2 P l k -> In x l -> exists y, In y k /\ P x y.
Proof.
  induction 1 as [|a b l k Hab _ IH]; intros Hx; [destruct Hx |].
  destruct Hx as [<- | Hx].
  - exists b. split; [left; reflexivity | exact Hab].
  - destruct (IH Hx) as (y & Hy & Hxy). exists y. split; [right |]; done.
Qed.

(** C8, as amended. In a document whose tags all have a local name, an
    [item] or [entry] element, in a namespace or in none, has a record, and
    the first [link] child of the element, in a namespace or in none,
    decides the link of that record: an [href] that is not empty is the
    link; without one (none, or an empty one) the text of the child, trimmed
    and not empty, is the link. *)
Theorem link_of_first_link_child
        (root e : elem) (pre : list elem) (c : elem) (post : list elem)
        (X : pystr) :
  Forall tag_ok (findall_descendants root) ->
  In e (findall_descendants root) ->
  named "item" (tag e) \/ named "entry" (tag e) ->
  children e = pre ++ c :: post ->
  Forall (fun c' => has_name ["link"] c' = false) pre ->
  named "link" (tag c) ->
  X <> [] ->
  attrib c !! U "href" = Some X
  \/ (truthy (attrib c !! U "href") = false /\ strip <$> text c = Some X) ->
  exists its d,
    parse_rss root = Ok its /\ In d its /\ parse_entry e = Ok d
    /\ get d "link" = Some X.
Proof.
  intros Hok He Hentry Hcs Hpre Hc HX Hval.
  destruct (parse_rss_entries root Hok) as (its & Hits & Hall).
  assert (In e (List.filter (has_name ["item"; "entry"])
                  (findall_descendants root))) as Hin.
  { apply filter_In. split; [exact He | apply has_name_entry; exact Hentry]. }
  destruct (Forall2_In_left _ _ _ _ Hall Hin) as (d & Hd & Hed).
  exists its, d. repeat split; try assumption.
  destruct (parse_entry_link e pre c post X Hcs
              (children_tag_ok root Hok e He) Hpre Hc HX Hval)
    as (d' & Hd' & Hlink).
  congruence.
Qed.

(** C3. An item whose [title] element is empty: the loop stores the key
    [title] with the value [None], [setdefault] then finds the key and
    leaves it, so the record has a null title, with a summary at hand (first
    item) and without one (second item). *)
Theorem empty_title_element_gets_no_fallback :
  parse_rss
    (Elem (U "rss") ∅ None
       [ Elem (U "channel") ∅ None
           [ Elem (U "item") ∅ None
               [ Elem (U "title") ∅ None [];
                 Elem (U "description") ∅ (Some (U "Body")) [] ];
             Elem (U "item") ∅ None
               [ Elem (U "title") ∅ None [] ] ] ])
  = Ok [ {[ "title" := None; "summary" := Some (U "Body"); "guid" := None ]};
         {[ "title" := None; "guid" := None ]} ].
Proof. vm_compute. reflexivity. Qed.

(** C4 at a concrete input: an item with two titles, two summary candidates
    and two dates. *)
Lemma extraction_witness :
  let e := Elem (U "item") ∅ None
             [ Elem (U "title") ∅ (Some (U "A")) [];
               Elem (U "description") ∅ (Some (U "D")) [];
               Elem (U "title") ∅ (Some (U "B")) [];
               Elem (U "content") ∅ (Some (U "C")) [];
               Elem (U "pubDate") ∅ (Some (U "P")) [];
               Elem (U "updated") ∅ (Some (U "Q")) [] ] in
  Forall tag_ok (children e)
  /\ exists d, parse_entry e = Ok d
               /\ get d "title" = Some (U "B")
               /\ get d "summary" = Some (U "D")
               /\ get d "published" = Some (U "P").
Proof.
  intros e.
  assert (Forall tag_ok (children e)) as Hok.
  { repeat (constructor; [eexists; vm_compute; reflexivity |]). constructor. }
  split; [exact Hok |].
  destruct (extraction_of_repeated_children e Hok) as (d & Hd & Ht & Hs & Hp).
  exists d. split; [exact Hd |]. split; [| split].
  - apply (Ht [ Elem (U "title") ∅ (Some (U "A")) [];
                Elem (U "description") ∅ (Some (U "D")) [] ]
              (Elem (U "title") ∅ (Some (U "B")) [])
              [ Elem (U "content") ∅ (Some (U "C")) [];
                Elem (U "pubDate") ∅ (Some (U "P")) [];
                Elem (U "updated") ∅ (Some (U "Q")) [] ]);
      [reflexivity | vm_compute; reflexivity |].
    repeat (constructor; [vm_compute; reflexivity |]). constructor.
  - apply (Hs [ Elem (U "title") ∅ (Some (U "A")) [] ]
              (Elem (U "description") ∅ (Some (U "D")) [])
              [ Elem (U "title") ∅ (Some (U "B")) [];
                Elem (U "content") ∅ (Some (U "C")) [];
                Elem (U "pubDate") ∅ (Some (U "P")) [];
                Elem (U "updated") ∅ (Some (U "Q")) [] ]);
      [reflexivity | | vm_compute; reflexivity | vm_compute; reflexivity].
    repeat (constructor; [vm_compute; reflexivity |]). constructor.
  - apply (Hp [ Elem (U "title") ∅ (Some (U "A")) [];
                Elem (U "description") ∅ (Some (U "D")) [];
                Elem (U "title") ∅ (Some (U "B")) [];
                Elem (U "content") ∅ (Some (U "C")) [] ]
              (Elem (U "pubDate") ∅ (Some (U "P")) [])
              [ Elem (U "updated") ∅ (Some (U "Q")) [] ]);
      [reflexivity | | vm_compute; reflexivity].
    repeat (constructor; [vm_compute; reflexivity |]). constructor.
Defined.

(** C4 as stated fails: of two [title] children the second one gives the
    title. *)
Lemma second_title_overrides_first :
  parse_entry
    (Elem (U "item") ∅ None
       [ Elem (U "title") ∅ (Some (U "A")) [];
         Elem (U "title") ∅ (Some (U "B")) [] ])
  = Ok {[ "title" := Some (U "B"); "guid" := None ]}.
Proof. vm_compute. reflexivity. Qed.

(** C8 at a concrete input: an Atom feed whose entry has a link in the Atom
    namespace that carries [href="X"]. *)
Lemma link_of_atom_entry_witness :
  let c := Elem (U "{http://www.w3.org/2005/Atom}link")
                {[ U "href" := U "X" ]} None [] in
  let e := Elem (U "{http://www.w3.org/2005/Atom}entry") ∅ None
             [ Elem (U "{http://www.w3.org/2005/Atom}title") ∅
                    (Some (U "T")) []; c ] in
  let root := Elem (U "{http://www.w3.org/2005/Atom}feed") ∅ None [e] in
  named "link" (tag c)
  /\ exists its d,
       parse_rss root = Ok its /\ In d its /\ parse_entry e = Ok d
       /\ get d "link" = Some (U "X").
Proof.
  intros c e root.
  assert (forall l, named l (qualified (U "http://www.w3.org/2005/Atom") (U l)))
    as Hq.
  { intros l. right. exists (U "http://www.w3.org/2005/Atom").
    split; [| reflexivity].
    apply (bool_decide_unpack _). vm_compute. exact I. }
  split; [exact (Hq "link") |].
  apply (link_of_first_link_child root e
           [ Elem (U "{http://www.w3.org/2005/Atom}title") ∅
                  (Some (U "T")) [] ] c [] (U "X")).
  - repeat (constructor; [eexists; vm_compute; reflexivity |]). constructor.
  - left. reflexivity.
  - right. exact (Hq "entry").
  - reflexivity.
  - repeat (constructor; [vm_compute; reflexivity |]). constructor.
  - exact (Hq "link").
  - discriminate.
  - left. vm_compute. reflexivity.
Defined.

(** C8 as stated fails: a [link] child with an empty [href] and the text
    ["T"] gives the link ["T"], not the value of the [href]. *)
Lemma empty_href_yields_text :
  parse_rss
    (Elem (U "feed") ∅ None
       [ Elem (U "entry") ∅ None
           [ Elem (U "link") {[ U "href" := [] ]} (Some (U "T")) [] ] ])
  = Ok [ {[ "link" := Some (U "T"); "guid" := Some (U "T");
            "title" := Some (U "(no title)") ]} ].
Proof. vm_compute. reflexivity. Qed.

(** * Further properties of the code *)

(** ** [RSSDB.save_items]: what a batch does to the table *)

Section StoreMore.
Variable utcnow : nat -> datetime.

Lemma save_item_from db n it :
  save_item utcnow (db, n) it =
  ((save_item utcnow (db, 0%nat) it).1,
   (n + (save_item utcnow (db, 0%nat) it).2)%nat).
Proof.
  unfold save_item. destruct (insert _ _); cbn [fst snd]; f_equal; lia.
Qed.

(** The count carried through the loop only adds up. *)
Lemma save_items_from db n its :
  fold_left (save_item utcnow) its (db, n) =
  ((save_items utcnow db its).1, (n + (save_items utcnow db its).2)%nat).
Proof.
  unfold save_items. revert db n.
  induction its as [|it its IH]; intros db n; cbn [fold_left].
  - cbn [fst snd]. f_equal. lia.
  - rewrite (save_item_from db n it).
    destruct (save_item utcnow (db, 0%nat) it) as [db1 n1]. cbn [fst snd].
    rewrite (IH db1 (n + n1)%nat), (IH db1 n1). cbn [fst snd]. f_equal. lia.
Qed.

Lemma save_items_cons db it its :
  save_items utcnow db (it :: its) =
  let r1 := save_item utcnow (db, 0%nat) it in
  let r2 := save_items utcnow r1.1 its in
  (r2.1, (r1.2 + r2.2)%nat).
Proof.
  unfold save_items at 1. cbn [fold_left].
  destruct (save_item utcnow (db, 0%nat) it) as [db1 n1].
  rewrite save_items_from. reflexivity.
Qed.

(** X1. Saving a batch in two parts is saving it whole: the second part
    starts from the database the first part left, and the counts add up. *)
Theorem save_items_app (db : rssdb) (a b : list item) :
  save_items utcnow db (a ++ b) =
  let first := save_items utcnow db a in
  let second := save_items utcnow first.1 b in
  (second.1, (first.2 + second.2)%nat).
Proof.
  cbv zeta. unfold save_items at 1. rewrite fold_left_app.
  fold (save_items utcnow db a).
  destruct (save_items utcnow db a) as [db1 n1]. cbn [fst snd].
  apply save_items_from.
Qed.

Lemma save_items_grows (db : rssdb) (its : list item) :
  exists added,
    items (save_items utcnow db its).1 = items db ++ added
    /\ length added = (save_items utcnow db its).2
    /\ ((save_items utcnow db its).2 <= length its)%nat
    /\ clock (save_items utcnow db its).1 = (clock db + length its)%nat.
Proof.
  revert db. induction its as [|it its IH]; intros db.
  - exists []. cbn. rewrite app_nil_r. repeat split; lia.
  - rewrite save_items_cons. cbv zeta.
    destruct (save_item utcnow (db, 0%nat) it) as [db1 n1] eqn:H1.
    cbn [fst snd]. destruct (IH db1) as (added & Hrows & Hlen & Hle & Hclk).
    unfold save_item, insert in H1.
    destruct (guid_taken _ _); injection H1 as <- <-; cbn [items clock] in *.
    + exists added. rewrite Hrows, Hclk. cbn [length]. repeat split; lia.
    + eexists (_ :: added). rewrite Hrows, Hclk, <- app_assoc.
      cbn [length app]. repeat split; lia.
Qed.

(** X2. The table only grows at its end: the rows stored before are kept as
    they are and in their order; the rows added are as many as the count
    returned, at most one for each item of the batch; each of them holds the
    five fields of an item of the batch; and the clock is read once for each
    item, stored or not. *)
Theorem save_items_appends (db : rssdb) (its : list item) :
  exists added,
    items (save_items utcnow db its).1 = items db ++ added
    /\ length added = (save_items utcnow db its).2
    /\ ((save_items utcnow db its).2 <= length its)%nat
    /\ clock (save_items utcnow db its).1 = (clock db + length its)%nat
    /\ Forall (fun r =>
                 exists it, In it its
                   /\ guid r = get it "guid" /\ title r = get it "title"
                   /\ link r = get it "link"
                   /\ published r = get it "published"
                   /\ summary r = get it "summary") added.
Proof.
  revert db. induction its as [|it its IH]; intros db.
  - exists []. cbn. rewrite app_nil_r. repeat split; try lia. constructor.
  - rewrite save_items_cons. cbv zeta.
    destruct (save_item utcnow (db, 0%nat) it) as [db1 n1] eqn:H1.
    cbn [fst snd].
    destruct (IH db1) as (added & Hrows & Hlen & Hle & Hclk & Hfrom).
    assert (Forall (fun r =>
                      exists it', In it' (it :: its)
                        /\ guid r = get it' "guid"
                        /\ title r = get it' "title"
                        /\ link r = get it' "link"
                        /\ published r = get it' "published"
                        /\ summary r = get it' "summary") added) as Hfrom'.
    { eapply Forall_impl; [exact Hfrom |].
      intros r (it' & Hin & Hr). exists it'. split; [right; exact Hin | exact Hr]. }
    unfold save_item, insert in H1.
    destruct (guid_taken _ _); injection H1 as <- <-; cbn [items clock] in *.
    + exists added. rewrite Hrows, Hclk. cbn [length].
      repeat split; try lia. exact Hfrom'.
    + eexists (_ :: added). rewrite Hrows, Hclk, <- app_assoc.
      cbn [length app]. repeat split; try lia.
      constructor; [| exact Hfrom'].
      exists it. cbn. repeat split. left. reflexivity.
Qed.

Lemma guid_taken_app t t' g :
  guid_taken t g = true -> guid_taken (t ++ t') g = true.
Proof.
  destruct g as [g|]; simpl; [| discriminate].
  rewrite existsb_app. intros ->. reflexivity.
Qed.

Lemma save_items_keeps_taken db its g :
  guid_taken (items db) g = true ->
  guid_taken (items (save_items utcnow db its).1) g = true.
Proof.
  intros H. destruct (save_items_grows db its) as (added & -> & _).
  apply guid_taken_app. exact H.
Qed.

Lemma save_items_all_known db its :
  Forall (fun it => guid_taken (items db) (get it "guid") = true) its ->
  save_items utcnow db its =
  (RssDb (items db) (clock db + length its), 0%nat).
Proof.
  revert db. induction its as [|it its IH]; intros db Hall.
  - cbn. destruct db. cbn. do 2 f_equal. lia.
  - apply Forall_cons in Hall as [Hit Hall].
    rewrite save_items_cons, (save_item_known utcnow db 0 it Hit).
    cbv zeta. cbn [fst snd]. rewrite IH by exact Hall.
    cbn [fst snd items clock length]. do 2 f_equal. lia.
Qed.

Lemma save_items_takes db its :
  Forall (fun it => get it "guid" <> None) its ->
  Forall (fun it =>
            guid_taken (items (save_items utcnow db its).1) (get it "guid")
            = true) its.
Proof.
  revert db. induction its as [|it its IH]; intros db Hall; [constructor |].
  apply Forall_cons in Hall as [Hit Hall].
  rewrite save_items_cons. cbv zeta. cbn [fst].
  destruct (get it "guid") as [g|] eqn:Hg; [| congruence].
  constructor.
  - rewrite Hg. apply save_items_keeps_taken.
    apply save_item_taken. exact Hg.
  - apply IH. exact Hall.
Qed.

(** X3. A batch whose items all have a guid, saved a second time, adds no
    row: the count is zero and the table is as the first save left it. *)
Theorem save_items_again_adds_nothing (db : rssdb) (its : list item) :
  Forall (fun it => get it "guid" <> None) its ->
  let first := save_items utcnow db its in
  save_items utcnow first.1 its =
  (RssDb (items first.1) (clock first.1 + length its), 0%nat).
Proof.
  intros Hall first. apply save_items_all_known.
  apply save_items_takes. exact Hall.
Qed.

(** X4. An item without a guid is stored each time it is saved: a batch of
    such items adds as many rows as it has items, whatever the table
    holds. *)
Theorem save_items_without_guid_all_added (db : rssdb) (its : list item) :
  Forall (fun it => get it "guid" = None) its ->
  (save_items utcnow db its).2 = length its
  /\ length (items (save_items utcnow db its).1)
     = (length (items db) + length its)%nat.
Proof.
  intros Hall.
  assert ((save_items utcnow db its).2 = length its) as Hcount.
  { revert db. induction Hall as [|it its Hit _ IH]; intros db; [reflexivity |].
    rewrite save_items_cons. cbv zeta.
    destruct (save_item utcnow (db, 0%nat) it) as [db1 n1] eqn:H1.
    unfold save_item, insert in H1. cbn [guid] in H1. rewrite Hit in H1.
    cbn [guid_taken] in H1. injection H1 as <- <-.
    cbn [fst snd length]. rewrite IH. reflexivity. }
  split; [exact Hcount |].
  destruct (save_items_grows db its) as (added & -> & Hlen & _).
  rewrite length_app. lia.
Qed.

(** X5. The guids of the table stay distinct: when no guid is stored twice
    before a batch, none is afterwards, whatever the batch. *)
Theorem save_items_guids_distinct (db : rssdb) (its : list item) :
  NoDup (omap guid (items db)) ->
  NoDup (omap guid (items (save_items utcnow db its).1)).
Proof.
  revert db. induction its as [|it its IH]; intros db Hnd; [exact Hnd |].
  rewrite save_items_cons. cbv zeta. cbn [fst]. apply IH.
  unfold save_item, insert. cbn [guid].
  destruct (guid_taken (items db) (get it "guid")) eqn:Ht; cbn [fst items];
    [exact Hnd |].
  rewrite omap_app. cbn [omap guid].
  destruct (get it "guid") as [g|] eqn:Hg; cbn; [| rewrite app_nil_r; exact Hnd].
  apply NoDup_app. split; [exact Hnd |]. split; [| apply NoDup_singleton].
  intros x Hx Hx'. apply list_elem_of_singleton in Hx'. subst x.
  apply list_elem_of_omap in Hx as (r & Hr & Hgr).
  simpl in Ht. apply not_true_iff_false in Ht. apply Ht.
  apply existsb_exists. exists r. split; [apply list_elem_of_In; exact Hr |].
  apply bool_decide_eq_true. exact Hgr.
Qed.

End StoreMore.

(** ** [_localname] and [parse_rss]: errors, order and the shape of records *)

Lemma after_first_Raise sep s e : after_first sep s = Raise e -> e = IndexError.
Proof.
  induction s as [|c s IH]; simpl; [congruence |].
  destruct (c =? sep); [discriminate | exact IH].
Qed.

Lemma after_first_Raise_iff sep s :
  after_first sep s = Raise IndexError <-> sep ∉ s.
Proof.
  induction s as [|c s IH]; simpl.
  - split; [intros _; apply not_elem_of_nil | reflexivity].
  - rewrite not_elem_of_cons. destruct (N.eqb_spec c sep) as [-> | Hne].
    + split; [discriminate | intros [H _]; congruence].
    + rewrite IH. split; [intros H; split; [congruence | exact H] | tauto].
Qed.

Lemma after_first_suffix sep s r :
  after_first sep s = Ok r -> exists pre, s = pre ++ sep :: r /\ sep ∉ pre.
Proof.
  revert r. induction s as [|c s IH]; intros r; simpl; [discriminate |].
  destruct (N.eqb_spec c sep) as [-> | Hne].
  - intros [= <-]. exists []. split; [reflexivity | apply not_elem_of_nil].
  - intros H. destruct (IH r H) as (pre & -> & Hpre).
    exists (c :: pre). split; [reflexivity |].
    apply not_elem_of_cons. split; [congruence | exact Hpre].
Qed.

Lemma _localname_Raise t e : _localname t = Raise e -> e = IndexError.
Proof.
  unfold _localname. destruct (startswith _ _); [| discriminate].
  apply after_first_Raise.
Qed.

(** X6. [_localname] hands a tag that does not start with a brace back as it
    is; of [{ns}local] it returns [local], whatever [local] is; it returns
    what follows the first closing brace, also when more braces follow; and
    it fails, with an [IndexError], exactly on a tag that opens a brace
    and never closes one. *)
Theorem _localname_cases (t : pystr) :
  (startswith (U "{") t = false -> _localname t = Ok t)
  /\ (forall ns local,
        0x7D ∉ ns -> t = qualified ns local -> _localname t = Ok local)
  /\ (forall n, startswith (U "{") t = true -> _localname t = Ok n ->
                exists pre, t = pre ++ 0x7D :: n /\ 0x7D ∉ pre)
  /\ (_localname t = Raise IndexError <->
      startswith (U "{") t = true /\ 0x7D ∉ t).
Proof.
  unfold _localname. split; [| split; [| split; [| split]]].
  - intros ->. reflexivity.
  - intros ns local Hns ->. unfold qualified.
    change (startswith (U "{") (0x7B :: (ns ++ 0x7D :: local))) with true.
    cbn [after_first]. change (0x7B =? 0x7D) with false. cbv iota.
    apply after_first_app. exact Hns.
  - intros n ->. apply after_first_suffix.
  - destruct (startswith (U "{") t); [| discriminate].
    intros H. split; [reflexivity |]. apply after_first_Raise_iff. exact H.
  - intros [-> H]. apply after_first_Raise_iff. exact H.
Qed.

Lemma foldM_Raise {A B : Type} (P : exn -> Prop) (f : B -> A -> result B)
      xs acc e :
  (forall acc x e, f acc x = Raise e -> P e) ->
  foldM f xs acc = Raise e -> P e.
Proof.
  intros Hf. revert acc. induction xs as [|x xs IH]; intros acc; simpl;
    [discriminate |].
  destruct (f acc x) as [acc'|e'] eqn:Hx; simpl; [apply IH |].
  intros [= <-]. eauto.
Qed.

Lemma collect_Raise d c e : collect d c = Raise e -> e = IndexError.
Proof.
  unfold collect. destruct (_localname (tag c)) eqn:Hn; simpl; [discriminate |].
  intros [= <-]. eapply _localname_Raise; eauto.
Qed.

Lemma parse_entry_Raise e x : parse_entry e = Raise x -> x = IndexError.
Proof.
  unfold parse_entry.
  destruct (foldM collect (children e) ∅) as [d|x'] eqn:H; simpl;
    [discriminate |].
  intros [= <-]. eapply (foldM_Raise (fun x => x = IndexError)); [| exact H].
  apply collect_Raise.
Qed.

Lemma foldM_Ok_steps {A B : Type} (f : B -> A -> result B) xs acc r :
  foldM f xs acc = Ok r ->
  Forall (fun x => exists a a', f a x = Ok a') xs.
Proof.
  revert acc. induction xs as [|x xs IH]; intros acc; simpl; [constructor |].
  destruct (f acc x) as [acc'|] eqn:Hx; simpl; [| discriminate].
  intros H. constructor; eauto.
Qed.

(** X7. [parse_rss] returns a list exactly when every element below the
    root has a tag with a local name; otherwise the whole call fails, and
    the only exception it raises is an [IndexError]. *)
Theorem parse_rss_succeeds_iff (root : elem) :
  ((exists its, parse_rss root = Ok its)
   <-> Forall tag_ok (findall_descendants root))
  /\ (forall e, parse_rss root = Raise e -> e = IndexError).
Proof.
  split; [split |].
  - intros [its H]. unfold parse_rss in H.
    apply foldM_Ok_steps in H. eapply Forall_impl; [exact H |].
    intros e (a & a' & Hstep). unfold tag_ok.
    destruct (_localname (tag e)) as [n|]; [eauto | discriminate].
  - intros Hok. destruct (parse_rss_entries root Hok) as (its & H & _). eauto.
  - intros e. unfold parse_rss.
    apply (foldM_Raise (fun e => e = IndexError)).
    intros acc x e'. destruct (_localname (tag x)) as [n|] eqn:Hn; simpl.
    + destruct (bool_decide _); [| discriminate].
      destruct (parse_entry x) eqn:Hx; simpl; [discriminate |].
      intros [= <-]. eapply parse_entry_Raise; eauto.
    + intros [= <-]. eapply _localname_Raise; eauto.
Qed.

(** X8. In a document whose tags all have a local name, [parse_rss] returns
    one record for each [item] and [entry] element below the root, in the
    order of the document: no such element is dropped, none is added, and
    the root itself is never one of them. *)
Theorem parse_rss_records_in_document_order (root : elem) :
  Forall tag_ok (findall_descendants root) ->
  exists its,
    parse_rss root = Ok its
    /\ Forall2 (fun e d => parse_entry e = Ok d)
         (List.filter (has_name ["item"; "entry"]) (flat_map iter (children root)))
         its
    /\ length its
       = length (List.filter (has_name ["item"; "entry"])
                   (flat_map iter (children root))).
Proof.
  intros Hok. destruct (parse_rss_entries root Hok) as (its & H & Hall).
  exists its. split; [exact H |].
  unfold findall_descendants in Hall. rewrite iter_unfold in Hall.
  cbn [tail] in Hall. split; [exact Hall |].
  symmetry. eapply Forall2_length. exact Hall.
Qed.

(** *** The shape of a record *)

Lemma stripped_text_not_empty c : stripped_text c <> Some [].
Proof.
  unfold stripped_text. destruct (text c) as [T|];
    cbn [fmap option_fmap option_map]; [| simpl; discriminate].
  destruct (truthy (Some T)), (strip T); simpl; discriminate.
Qed.

Lemma por_not_empty a b : b <> Some [] -> por a b <> Some [].
Proof.
  unfold por. destruct a as [[|x a]|]; simpl; auto.
Qed.

Lemma fields_only_empty : fields_only ∅.
Proof.
  split; intros k; rewrite lookup_empty; [intros [v Hv] |]; discriminate.
Qed.

Lemma fields_only_insert d k v :
  fields_only d -> k ∈ field_names -> v <> Some [] ->
  fields_only (<[k := v]> d).
Proof.
  intros [Hk Hv] Hin Hne. split; intros k'.
  - destruct (decide (k = k')) as [<- | Hkk]; [intros _; exact Hin |].
    rewrite lookup_insert_ne by exact Hkk. apply Hk.
  - destruct (decide (k = k')) as [<- | Hkk].
    + rewrite lookup_insert_eq. congruence.
    + rewrite lookup_insert_ne by exact Hkk. apply Hv.
Qed.

Lemma fields_only_setdefault d k v :
  fields_only d -> k ∈ field_names -> v <> Some [] ->
  fields_only (setdefault d k v).
Proof.
  intros Hd Hin Hne. unfold setdefault.
  destruct (d !! k); [exact Hd | apply fields_only_insert; assumption].
Qed.

Lemma fields_only_get d k : fields_only d -> get d k <> Some [].
Proof.
  intros [_ Hv]. unfold get. specialize (Hv k).
  destruct (d !! k) as [v|]; simpl; congruence.
Qed.

Lemma collect_fields_only d c d' :
  fields_only d -> collect d c = Ok d' -> fields_only d'.
Proof.
  intros Hd. unfold collect.
  destruct (_localname (tag c)) as [n|]; simpl; [| discriminate].
  intros [= <-].
  repeat case_bool_decide;
    first [ exact Hd
          | apply fields_only_insert
          | apply fields_only_setdefault ];
    try exact Hd;
    try (apply stripped_text_not_empty);
    try (apply por_not_empty; apply stripped_text_not_empty);
    unfold field_names; set_solver.
Qed.

Lemma fallbacks_shape d : fields_only d -> record_shape (fallbacks d).
Proof.
  intros Hd.
  assert (fields_only (fallbacks d)) as Hf.
  { unfold fallbacks. apply fields_only_setdefault.
    - destruct (negb _); [apply fields_only_insert |]; try exact Hd.
      + unfold field_names. set_solver.
      + apply fields_only_get. exact Hd.
    - unfold field_names. set_solver.
    - apply por_not_empty. discriminate. }
  split; [| split; [| split]].
  - unfold fallbacks, setdefault. repeat case_match; simplify_map_eq; eauto.
    all: unfold get in *; destruct (d !! "guid");
      [eauto | simpl in *; discriminate].
  - unfold fallbacks, setdefault. repeat case_match; simplify_map_eq; eauto.
  - apply Hf.
  - intros k. apply fields_only_get. exact Hf.
Qed.

Lemma parse_entry_shape e d : parse_entry e = Ok d -> record_shape d.
Proof.
  intros (d0 & Hd0 & ->)%parse_entry_Ok. apply fallbacks_shape.
  eapply (foldM_collect_inv fields_only); [| apply fields_only_empty | exact Hd0].
  intros; eapply collect_fields_only; eauto.
Qed.

(** Every record that [parse_rss] returns is the record of an element. *)
Lemma parse_rss_Forall (P : item -> Prop) root its :
  (forall e d, parse_entry e = Ok d -> P d) ->
  parse_rss root = Ok its -> Forall P its.
Proof.
  intros HP. unfold parse_rss.
  match goal with
  | |- foldM ?f _ [] = _ -> _ =>
      enough (forall es acc, Forall P acc -> foldM f es acc = Ok its ->
                             Forall P its) as Hgen
        by (apply Hgen; constructor)
  end.
  induction es as [|e es IH]; intros acc Hacc; simpl.
  - intros [= <-]. exact Hacc.
  - destruct (_localname (tag e)) as [n|]; simpl; [| discriminate].
    destruct (bool_decide _); [| apply IH; exact Hacc].
    destruct (parse_entry e) as [d|] eqn:Hd; simpl; [| discriminate].
    apply IH. apply Forall_app. split; [exact Hacc |].
    constructor; [eauto | constructor].
Qed.

(** X9. Every record that [parse_rss] returns has the keys [guid] and
    [title], has no key besides [guid], [link], [title], [summary] and
    [published], and has no empty string as a value: a field is a string
    that is not empty, or null. *)
Theorem parse_rss_record_shape (root : elem) (its : list item) :
  parse_rss root = Ok its -> Forall record_shape its.
Proof. apply parse_rss_Forall. apply parse_entry_shape. Qed.

(** *** The guid and the title of an entry *)

Lemma collect_guid_other d c d' :
  collect d c = Ok d' -> has_name ["guid"] c = false ->
  d' !! "guid" = d !! "guid".
Proof. collect_cases. Qed.

Lemma collect_guid_hit d c d' :
  collect d c = Ok d' -> has_name ["guid"] c = true ->
  d' !! "guid" = Some (stripped_text c).
Proof. collect_cases. Qed.

Lemma truthy_stripped_text c :
  truthy (stripped_text c) = match stripped_text c with
                             | Some _ => true
                             | None => false
                             end.
Proof.
  pose proof (stripped_text_not_empty c) as H.
  destruct (stripped_text c) as [[|x s]|]; simpl; congruence.
Qed.

(** X10. The guid of a record is the text of the last [guid] child of the
    entry; when the entry has no [guid] child, or the last one has no text,
    the guid is the link of the record (which may be null). *)
Theorem guid_of_entry (e : elem) (d : item) :
  parse_entry e = Ok d ->
  (Forall (fun c => has_name ["guid"] c = false) (children e) ->
   get d "guid" = get d "link")
  /\ (forall pre c post,
        children e = pre ++ c :: post ->
        has_name ["guid"] c = true ->
        Forall (fun c' => has_name ["guid"] c' = false) post ->
        get d "guid" = match stripped_text c with
                       | Some x => Some x
                       | None => get d "link"
                       end).
Proof.
  intros (d0 & Hd0 & ->)%parse_entry_Ok.
  rewrite fallbacks_guid, (fallbacks_get d0 "link") by done. split.
  - intros Hno. unfold get at 1 2.
    rewrite (foldM_collect_other "guid" ["guid"] collect_guid_other
               _ _ _ Hno Hd0), lookup_empty.
    reflexivity.
  - intros pre c post Hcs Hc Hpost. rewrite Hcs, foldM_app in Hd0.
    destruct (foldM collect pre ∅) as [d1|]; simpl in Hd0; [| discriminate].
    destruct (collect d1 c) as [d2|] eqn:H2; simpl in Hd0; [| discriminate].
    assert (get d0 "guid" = stripped_text c) as ->.
    { unfold get.
      rewrite (foldM_collect_other "guid" ["guid"] collect_guid_other
                 _ _ _ Hpost Hd0), (collect_guid_hit _ _ _ H2 Hc).
      reflexivity. }
    rewrite truthy_stripped_text. destruct (stripped_text c); reflexivity.
Qed.

(** X11. An entry without a [title] child gets the summary as its title, or
    the placeholder ["(no title)"] when the summary is null; its title is
    never null. *)
Theorem title_of_entry_without_title (e : elem) (d : item) :
  parse_entry e = Ok d ->
  Forall (fun c => has_name ["title"] c = false) (children e) ->
  get d "title" = match get d "summary" with
                  | Some x => Some x
                  | None => Some (U "(no title)")
                  end
  /\ get d "title" <> None.
Proof.
  intros Hd Hno. pose proof (parse_entry_shape _ _ Hd) as (_ & _ & _ & Hne).
  apply parse_entry_Ok in Hd as (d0 & Hd0 & ->).
  assert (d0 !! "title" = None) as Ht.
  { rewrite (foldM_collect_other "title" ["title"] collect_title_other
               _ _ _ Hno Hd0). apply lookup_empty. }
  rewrite (fallbacks_title_absent d0 Ht).
  specialize (Hne "summary"). rewrite (fallbacks_get d0 "summary") in * by done.
  unfold por. destruct (get d0 "summary") as [[|x s]|]; simpl;
    [congruence | split; [reflexivity | discriminate]
     | split; [reflexivity | discriminate]].
Qed.

Lemma collect_unrecognized d c :
  tag_ok c -> has_name recognized c = false -> collect d c = Ok d.
Proof.
  intros [n Hn]. unfold collect, has_name. rewrite Hn. simpl.
  intros H%bool_decide_eq_false. f_equal.
  repeat case_bool_decide; try reflexivity; exfalso; apply H;
    unfold recognized; cbn [map]; set_solver.
Qed.

(** X12. An entry none of whose children has a name that the parser knows
    (an entry without children among them) still gives a record: the guid
    null and the title ["(no title)"], and nothing else. *)
Theorem entry_without_known_children (e : elem) :
  Forall tag_ok (children e) ->
  Forall (fun c => has_name recognized c = false) (children e) ->
  parse_entry e
  = Ok {[ "guid" := None; "title" := Some (U "(no title)") ]}.
Proof.
  intros Hok Hno. apply parse_entry_Ok. exists ∅. split; [| reflexivity].
  induction (children e) as [|c cs IH]; [reflexivity |].
  apply Forall_cons in Hok as [Hc Hok]. apply Forall_cons in Hno as [Hn Hno].
  cbn [foldM]. rewrite (collect_unrecognized ∅ c Hc Hn). cbn [bind]. auto.
Qed.

(** ** The cleaners: what the result looks like *)

Section CleanersMore.
Variable L : Lib.

Lemma trimmed_spaces p t :
  trimmed p t = true -> Forall (fun x => isspace x = true -> x = 0x20) t.
Proof.
  revert p. induction t as [|x t IH]; intros p; simpl; [constructor |].
  destruct (isspace x) eqn:Hx.
  - intros [[Hx' _]%andb_true_iff Ht]%andb_true_iff.
    constructor; [intros _; apply N.eqb_eq; exact Hx' | eauto].
  - intros Ht. constructor; [intros H; congruence | eauto].
Qed.

Lemma snapshot_clean_Some s t :
  clean_summary_for_snapshot L s = Some t ->
  ExportJsonl.clean_summary L s = Some t /\ t <> [].
Proof.
  intros H. destruct s as [[|x s]|]; try discriminate.
  rewrite cleaners_agree by discriminate. split; [exact H |].
  intros ->. rewrite <- cleaners_agree in H by discriminate.
  exact (clean_summary_not_empty L x s H).
Qed.

Lemma normalized_of_trimmed t :
  trimmed true t = true ->
  strip t = t /\ sub L ExportJsonl.ws_re (U " ") t = t
  /\ Forall (fun x => isspace x = true -> x = 0x20) t.
Proof.
  intros Ht. split; [apply strip_trimmed; exact Ht |]. split.
  - rewrite sub_ws. apply collapse_trimmed, trimmed_weaken, Ht.
  - eapply trimmed_spaces; exact Ht.
Qed.

(** X13. What [clean_summary_for_snapshot] returns is null or a text that
    is not empty, has no white space at either end, and has no white space
    inside but single U+0020: stripping it, or collapsing its white space
    once more, changes nothing. Null and the empty string give null. *)
Theorem snapshot_summary_normalized (s : option pystr) (t : pystr) :
  clean_summary_for_snapshot L s = Some t ->
  t <> []
  /\ strip t = t
  /\ sub L ExportJsonl.ws_re (U " ") t = t
  /\ Forall (fun x => isspace x = true -> x = 0x20) t
  /\ clean_summary_for_snapshot L None = None
  /\ clean_summary_for_snapshot L (Some []) = None.
Proof.
  intros [H Hne]%snapshot_clean_Some. split; [exact Hne |].
  destruct s as [s|]; [| discriminate].
  pose proof (clean_summary_trimmed L s t H Hne) as Ht.
  destruct (normalized_of_trimmed t Ht) as (H1 & H2 & H3).
  repeat split; assumption.
Qed.

(** X14. The same holds of [clean_summary] for every input but the empty
    string: the text it returns is not empty, stripped, and single-spaced. *)
Theorem export_summary_normalized (s : option pystr) (t : pystr) :
  s <> Some [] ->
  ExportJsonl.clean_summary L s = Some t ->
  t <> []
  /\ strip t = t
  /\ sub L ExportJsonl.ws_re (U " ") t = t
  /\ Forall (fun x => isspace x = true -> x = 0x20) t.
Proof.
  intros Hs H. rewrite cleaners_agree in H by exact Hs.
  apply snapshot_clean_Some in H as [H Hne]. split; [exact Hne |].
  destruct s as [s|]; [| discriminate].
  apply normalized_of_trimmed. eapply clean_summary_trimmed; eauto.
Qed.

(** *** No tag is left, unless a character reference brings one in *)

Lemma notin_sub_from r c skip s :
  c <> 0x20 -> c ∉ s -> c ∉ sub_from L r (U " ") skip s.
Proof.
  intros Hc. revert skip. induction s as [|x s IH]; intros skip Hs.
  - cbn [sub_from]. destruct skip, (match_len L r []); try apply not_elem_of_nil.
    intros H%list_elem_of_singleton. exact (Hc H).
  - apply not_elem_of_cons in Hs as [Hx Hs]. cbn [sub_from].
    destruct skip as [|n]; [| auto].
    destruct (match_len L r (x :: s)) as [[|n]|].
    + change (U " " ++ x :: sub_from L r (U " ") 0 s)
        with (0x20 :: x :: sub_from L r (U " ") 0 s).
      rewrite !not_elem_of_cons. auto.
    + change (U " " ++ sub_from L r (U " ") n s)
        with (0x20 :: sub_from L r (U " ") n s).
      rewrite not_elem_of_cons. auto.
    + rewrite not_elem_of_cons. auto.
Qed.

Lemma notin_remove_patterns c s :
  c <> 0x20 -> c ∉ s -> c ∉ ExportJsonl.remove_patterns L s.
Proof.
  intros Hc. unfold ExportJsonl.remove_patterns.
  generalize ExportJsonl.patterns as ps. intros ps. revert s.
  induction ps as [|p ps IH]; intros s Hs; cbn [fold_left]; [exact Hs |].
  apply IH. apply notin_sub_from; assumption.
Qed.

(** [[^>]*>] from the head of [s]: what follows the first [>]. *)
Lemma rep_not_gt s :
  rep_match L (NotChar 0x3E) 0 None s
    (fun s' => re_match L (Chr 0x3E) s' Some)
  = match after_first 0x3E s with
    | Ok r => Some r
    | Raise _ => None
    end.
Proof.
  induction s as [|x s IH]; [reflexivity |].
  cbn [rep_match after_first cls_match hi_open dec_hi Nat.pred].
  rewrite IH. cbn [re_match].
  destruct (x =? 0x3E); cbn [negb andb]; [reflexivity |].
  destruct (after_first 0x3E s); reflexivity.
Qed.

Lemma match_len_tag_other c s :
  c <> 0x3C -> match_len L ExportJsonl.tag_re (c :: s) = None.
Proof.
  intros Hc. unfold match_len, ExportJsonl.tag_re. cbn [re_match].
  destruct (N.eqb_spec c 0x3C); [congruence | reflexivity].
Qed.

Lemma match_len_tag_open y s :
  match_len L ExportJsonl.tag_re (0x3C :: y :: s) =
  if y =? 0x3E then None
  else match after_first 0x3E s with
       | Ok r => Some (length (0x3C%N :: y :: s) - length r)%nat
       | Raise _ => None
       end.
Proof.
  unfold match_len, ExportJsonl.tag_re.
  change (re_match L (Seq (Chr 0x3C)
            (Seq (Rep (NotChar 0x3E) 1 None) (Chr 0x3E))) (0x3C :: y :: s) Some)
    with (rep_match L (NotChar 0x3E) 1 None (y :: s)
            (fun s' => re_match L (Chr 0x3E) s' Some)).
  cbn [rep_match cls_match hi_open dec_hi Nat.pred].
  rewrite rep_not_gt.
  destruct (y =? 0x3E); cbn [negb andb]; [reflexivity |].
  destruct (after_first 0x3E s); reflexivity.
Qed.

Lemma match_len_tag_closed s :
  0x3E ∉ s -> match_len L ExportJsonl.tag_re s = None.
Proof.
  intros Hs. destruct s as [|c [|y s]]; [reflexivity | |].
  - destruct (N.eq_dec c 0x3C) as [-> |]; [reflexivity |].
    apply match_len_tag_other; assumption.
  - destruct (N.eq_dec c 0x3C) as [-> |]; [| apply match_len_tag_other; done].
    rewrite match_len_tag_open. destruct (y =? 0x3E); [reflexivity |].
    apply not_elem_of_cons in Hs as [_ Hs].
    apply not_elem_of_cons in Hs as [_ Hs].
    apply after_first_Raise_iff in Hs. rewrite Hs. reflexivity.
Qed.

Lemma match_len_tag_pos s : match_len L ExportJsonl.tag_re s <> Some 0%nat.
Proof.
  destruct s as [|c [|y s]]; [discriminate | |].
  - destruct (N.eq_dec c 0x3C) as [-> |]; [discriminate |].
    rewrite match_len_tag_other by assumption. discriminate.
  - destruct (N.eq_dec c 0x3C) as [-> |];
      [| rewrite match_len_tag_other by assumption; discriminate].
    rewrite match_len_tag_open. destruct (y =? 0x3E); [discriminate |].
    destruct (after_first 0x3E s) as [r|] eqn:Hr; [| discriminate].
    apply after_first_suffix in Hr as (pre & -> & _).
    cbn [length]. rewrite length_app. cbn [length]. intros [= H]. lia.
Qed.

(** No tag starts at a [<] when what follows starts with [>] or holds no
    [>] behind its first character. *)
Lemma match_len_tag_None_iff s :
  match_len L ExportJsonl.tag_re (0x3C :: s) = None <->
  match s with
  | [] => True
  | y :: s' => y = 0x3E \/ 0x3E ∉ s'
  end.
Proof.
  destruct s as [|y s]; [split; [auto | reflexivity] |].
  rewrite match_len_tag_open. destruct (N.eqb_spec y 0x3E) as [-> | Hy].
  - split; [auto | reflexivity].
  - destruct (after_first 0x3E s) as [r|e] eqn:Hr.
    + split; [discriminate |]. intros [? | Hs]; [congruence |].
      apply after_first_Raise_iff in Hs. congruence.
    + split; [| reflexivity]. intros _. right.
      apply after_first_Raise_iff. rewrite Hr. f_equal.
      eapply after_first_Raise; eauto.
Qed.

(** After the substitution of the tags no tag is left. *)
Lemma no_tag_after_sub s skip :
  search L ExportJsonl.tag_re
    (sub_from L ExportJsonl.tag_re (U " ") skip s) = false.
Proof.
  revert skip. induction s as [|x s IH]; intros skip.
  - destruct skip; reflexivity.
  - cbn [sub_from]. destruct skip as [|n]; [| apply IH].
    destruct (match_len L ExportJsonl.tag_re (x :: s)) as [[|n]|] eqn:Hm.
    + exfalso. exact (match_len_tag_pos _ Hm).
    + change (U " " ++ sub_from L ExportJsonl.tag_re (U " ") n s)
        with (0x20 :: sub_from L ExportJsonl.tag_re (U " ") n s).
      cbn [search]. rewrite match_len_tag_other by discriminate. apply IH.
    + cbn [search]. rewrite IH.
      destruct (N.eq_dec x 0x3C) as [-> | Hx];
        [| rewrite match_len_tag_other by exact Hx; reflexivity].
      replace (match_len L ExportJsonl.tag_re
                 (0x3C :: sub_from L ExportJsonl.tag_re (U " ") 0 s))
        with (@None nat); [reflexivity |].
      symmetry. apply match_len_tag_None_iff.
      apply match_len_tag_None_iff in Hm.
      destruct s as [|y s]; [exact I |].
      cbn [sub_from]. destruct Hm as [-> | Hs].
      * rewrite match_len_tag_other by discriminate. left. reflexivity.
      * destruct (match_len L ExportJsonl.tag_re (y :: s)) as [[|k]|] eqn:Hy.
        -- exfalso. exact (match_len_tag_pos _ Hy).
        -- right. apply notin_sub_from; [discriminate | exact Hs].
        -- right. apply notin_sub_from; [discriminate | exact Hs].
Qed.

Lemma search_tag_cons x s :
  search L ExportJsonl.tag_re (x :: s) = false ->
  match_len L ExportJsonl.tag_re (x :: s) = None
  /\ search L ExportJsonl.tag_re s = false.
Proof.
  cbn [search]. destruct (match_len _ _ _); [discriminate | auto].
Qed.

Lemma notin_collapse c b s :
  isspace c = false -> c ∉ s -> c ∉ collapse_from b s.
Proof.
  intros Hc. revert b. induction s as [|x s IH]; intros b Hs;
    [apply not_elem_of_nil |].
  apply not_elem_of_cons in Hs as [Hx Hs]. cbn [collapse_from].
  destruct (isspace x); [destruct b |]; rewrite ?not_elem_of_cons; auto.
  split; [| auto]. intros ->. discriminate.
Qed.

(** Collapsing white space brings no tag in. *)
Lemma no_tag_collapse b s :
  search L ExportJsonl.tag_re s = false ->
  search L ExportJsonl.tag_re (collapse_from b s) = false.
Proof.
  revert b. induction s as [|x s IH]; intros b; [reflexivity |].
  intros [Hm Hs]%search_tag_cons. cbn [collapse_from].
  destruct (isspace x) eqn:Hx.
  - destruct b; [apply IH; exact Hs |].
    cbn [search]. rewrite match_len_tag_other by discriminate.
    apply IH. exact Hs.
  - cbn [search]. rewrite (IH false Hs).
    destruct (N.eq_dec x 0x3C) as [-> | Hne];
      [| rewrite match_len_tag_other by exact Hne; reflexivity].
    replace (match_len L ExportJsonl.tag_re (0x3C :: collapse_from false s))
      with (@None nat); [reflexivity |].
    symmetry. apply match_len_tag_None_iff.
    apply match_len_tag_None_iff in Hm.
    destruct s as [|y s]; [exact I |].
    cbn [collapse_from]. destruct (isspace y) eqn:Hy.
    + right. apply notin_collapse; [reflexivity |].
      destruct Hm as [-> | Hm]; [discriminate | exact Hm].
    + destruct Hm as [-> | Hm]; [left; reflexivity |].
      right. apply notin_collapse; [reflexivity | exact Hm].
Qed.

Lemma no_tag_tail x s :
  search L ExportJsonl.tag_re (x :: s) = false ->
  search L ExportJsonl.tag_re s = false.
Proof. intros H. apply search_tag_cons in H. tauto. Qed.

Lemma no_tag_lstrip s :
  search L ExportJsonl.tag_re s = false ->
  search L ExportJsonl.tag_re (lstrip s) = false.
Proof.
  induction s as [|x s IH]; [reflexivity |]. cbn [lstrip].
  destruct (isspace x); [| auto]. intros H. apply IH.
  eapply no_tag_tail; eauto.
Qed.

Lemma no_tag_prefix s x :
  search L ExportJsonl.tag_re (s ++ [x]) = false ->
  search L ExportJsonl.tag_re s = false.
Proof.
  induction s as [|c s IH]; [reflexivity |].
  rewrite <- app_comm_cons. intros [Hm Hs]%search_tag_cons.
  cbn [search]. rewrite (IH Hs).
  destruct (N.eq_dec c 0x3C) as [-> | Hne];
    [| rewrite match_len_tag_other by exact Hne; reflexivity].
  replace (match_len L ExportJsonl.tag_re (0x3C :: s)) with (@None nat);
    [reflexivity |].
  symmetry. apply match_len_tag_None_iff.
  apply match_len_tag_None_iff in Hm.
  destruct s as [|y s]; [exact I |].
  rewrite <- app_comm_cons in Hm. destruct Hm as [-> | Hm]; [auto |].
  right. intros H. apply Hm. apply elem_of_app. auto.
Qed.

Lemma no_tag_rstrip s :
  search L ExportJsonl.tag_re s = false ->
  search L ExportJsonl.tag_re (rstrip s) = false.
Proof.
  induction s as [|x s IH] using rev_ind; [reflexivity |].
  rewrite rstrip_snoc. destruct (isspace x); [| auto].
  intros H. apply IH. eapply no_tag_prefix; eauto.
Qed.

Lemma notin_lstrip (c : N) s : c ∉ s -> c ∉ lstrip s.
Proof.
  induction s as [|x s IH]; [auto |]. cbn [lstrip].
  destruct (isspace x); [| auto].
  intros [_ H]%not_elem_of_cons. auto.
Qed.

Lemma notin_rev (c : N) s : c ∉ s -> c ∉ rev s.
Proof.
  rewrite !list_elem_of_In. intros H Hin. apply H, in_rev. exact Hin.
Qed.

Lemma notin_strip (c : N) s : c ∉ s -> c ∉ strip s.
Proof.
  intros H. unfold strip, rstrip.
  apply notin_rev, notin_lstrip, notin_rev, notin_lstrip. exact H.
Qed.

Lemma no_tag_in_clean x s t :
  0x26 ∉ x :: s ->
  ExportJsonl.clean_summary L (Some (x :: s)) = Some t ->
  search L ExportJsonl.tag_re t = false /\ 0x26 ∉ t.
Proof.
  intros Hamp. rewrite clean_summary_cons. cbv zeta.
  set (u := sub L ExportJsonl.tag_re (U " ")
              (ExportJsonl.remove_patterns L (x :: s))).
  assert (0x26 ∉ u) as Hu.
  { apply notin_sub_from; [discriminate |].
    apply notin_remove_patterns; [discriminate | exact Hamp]. }
  assert (Html.unescape L u = u) as ->.
  { apply unescape_no_amp. apply not_true_iff_false. intros H.
    apply existsb_exists in H as (c & Hin & Hc%N.eqb_eq). subst c.
    apply Hu. apply list_elem_of_In. exact Hin. }
  assert (search L ExportJsonl.tag_re (strip (collapse_from false u)) = false)
    as Htag.
  { apply no_tag_rstrip, no_tag_lstrip, no_tag_collapse, no_tag_after_sub. }
  assert (0x26 ∉ strip (collapse_from false u)) as Hamp'.
  { apply notin_strip, notin_collapse; [reflexivity | exact Hu]. }
  destruct (strip (collapse_from false u)); simpl; [discriminate |].
  intros [= <-]. split; assumption.
Qed.

(** X15. A summary without [&] is cleaned to a text without a tag: no
    [<...>] is left in what [clean_summary] returns, and no [&]. (With a
    [&] in the summary a character reference can bring a tag in.) *)
Theorem clean_summary_leaves_no_tag (s t : pystr) :
  0x26 ∉ s ->
  ExportJsonl.clean_summary L (Some s) = Some t ->
  search L ExportJsonl.tag_re t = false /\ 0x26 ∉ t.
Proof.
  intros Hamp H. destruct s as [|x s].
  - injection H as <-. split; [reflexivity | exact Hamp].
  - eapply no_tag_in_clean; eauto.
Qed.

End CleanersMore.

(** ** [export] and [export_db_to_json]: filters, caps and the two files *)

Section ExportMore.
Variable L : Lib.

Lemma length_order_by t : length (order_by_fetched_at t) = length t.
Proof. apply Permutation_length, order_by_perm. Qed.

(** X16. With no threshold (none, or the empty string) and no limit (none,
    or zero) [export] writes every row of the table, in non-decreasing order
    of [fetched_at], and returns their number. *)
Theorem export_without_filters_writes_all
        (t : table) (since : option pystr) (limit : option Z) :
  truthy since = false ->
  limit = None \/ limit = Some 0%Z ->
  exists rs,
    ExportJsonl.export L t since limit
    = Ok (map (ExportJsonl.project L) rs, length t)
    /\ Permutation rs t
    /\ Sorted fetched_le rs.
Proof.
  intros Hs Hl. exists (order_by_fetched_at t).
  split; [| split; [apply order_by_perm | apply order_by_sorted]].
  unfold ExportJsonl.export, ExportJsonl.select_since. rewrite Hs.
  destruct Hl as [-> | ->]; cbn [bind Z.eqb]; rewrite length_order_by;
    reflexivity.
Qed.

(** X17. A limit that does not fit a 64-bit integer makes [export] fail
    with an [OverflowError], whatever the table and the threshold. *)
Theorem export_limit_out_of_range
        (t : table) (since : option pystr) (k : Z) :
  (k < - 2 ^ 63 \/ 2 ^ 63 <= k)%Z ->
  ExportJsonl.export L t since (Some k) = Raise OverflowError.
Proof.
  intros Hk. unfold ExportJsonl.export, ExportJsonl.select_since, bind_int.
  cbv zeta. destruct (Z.eqb_spec k 0); [lia |].
  destruct (Z.leb_spec (- 2 ^ 63) k), (Z.ltb_spec k (2 ^ 63));
    try lia; reflexivity.
Qed.

(** X18. A negative limit (within 64 bits) caps nothing: [export] writes
    what it writes without a limit. *)
Theorem export_negative_limit_caps_nothing
        (t : table) (since : option pystr) (k : Z) :
  (- 2 ^ 63 <= k < 0)%Z ->
  ExportJsonl.export L t since (Some k) = ExportJsonl.export L t since None.
Proof.
  intros Hk. unfold ExportJsonl.export, ExportJsonl.select_since, bind_int,
    limit_rows.
  cbv zeta. destruct (Z.eqb_spec k 0); [lia |].
  destruct (Z.leb_spec (- 2 ^ 63) k), (Z.ltb_spec k (2 ^ 63)); try lia.
  cbn [andb bind]. destruct (Z.ltb_spec k 0); [reflexivity | lia].
Qed.

(** X19. With a limit [k], [0 < k < 2^63], [export] writes [k] rows, or all
    the rows that pass the threshold when these are fewer, and returns that
    number. *)
Theorem export_written_count
        (t : table) (since : option pystr) (k : Z) :
  (0 < k < 2 ^ 63)%Z ->
  exists objs,
    ExportJsonl.export L t since (Some k)
    = Ok (objs,
          Nat.min (Z.to_nat k)
            (length (match since with
                     | Some th => where_fetched_ge th t
                     | None => t
                     end)))
    /\ length objs
       = Nat.min (Z.to_nat k)
           (length (match since with
                    | Some th => where_fetched_ge th t
                    | None => t
                    end)).
Proof.
  intros Hk. unfold ExportJsonl.export.
  rewrite (select_since_limit t since k Hk). cbn [bind].
  set (sel := match since with
              | Some th => where_fetched_ge th t
              | None => t
              end).
  exists (map (ExportJsonl.project L)
            (take (Z.to_nat k) (order_by_fetched_at sel))).
  rewrite length_map, length_take, length_order_by. split; reflexivity.
Qed.

(** X20. Raising the limit only adds rows at the end: what [export] selects
    under the limit [k] is the first [k] rows of what it selects under a
    limit [k'] that is not smaller. *)
Theorem export_limit_prefix
        (t : table) (since : option pystr) (k k' : Z) :
  (0 < k <= k')%Z -> (k' < 2 ^ 63)%Z ->
  exists rs rs',
    ExportJsonl.select_since t since (Some k) = Ok rs
    /\ ExportJsonl.select_since t since (Some k') = Ok rs'
    /\ rs = take (Z.to_nat k) rs'.
Proof.
  intros Hk Hk'. do 2 eexists.
  split; [apply select_since_limit; lia |].
  split; [apply select_since_limit; lia |].
  rewrite take_take. f_equal. lia.
Qed.

Lemma export_eq_snapshot (t : table) :
  Forall (fun r => summary r <> Some []) t ->
  ExportJsonl.export L t None None = Ok (export_db_to_json L t).
Proof.
  intros Hne. unfold ExportJsonl.export, ExportJsonl.select_since,
    export_db_to_json.
  cbn [truthy bind]. do 2 f_equal.
  apply map_ext_in. intros r Hr. unfold ExportJsonl.project. f_equal.
  apply cleaners_agree.
  rewrite Forall_forall in Hne. apply Hne.
  apply list_elem_of_In in Hr.
  rewrite (order_by_perm t) in Hr. exact Hr.
Qed.

(** X21. The snapshot of the poller and the file of the exporter agree: on a
    table none of whose summaries is the empty string, [export] without
    filters writes the objects that [export_db_to_json] writes and returns
    the same count, which is the number of rows of the table. *)
Theorem snapshot_is_unfiltered_export (t : table) :
  Forall (fun r => summary r <> Some []) t ->
  ExportJsonl.export L t None None = Ok (export_db_to_json L t)
  /\ (export_db_to_json L t).2 = length t
  /\ length (export_db_to_json L t).1 = length t.
Proof.
  intros Hne. split; [apply export_eq_snapshot; exact Hne |].
  unfold export_db_to_json. cbn [fst snd].
  rewrite length_map, length_order_by. split; reflexivity.
Qed.

End ExportMore.

(** ** The time stamps: when the order of the strings is the order in time *)

Lemma str_leb_compare s t :
  str_leb s t = match lex_compare s t with Gt => false | _ => true end.
Proof.
  revert t. induction s as [|a s IH]; intros [|b t]; simpl; try reflexivity.
  rewrite IH. destruct (N.compare_spec a b) as [-> | H | H].
  - rewrite N.ltb_irrefl, N.eqb_refl. reflexivity.
  - apply N.ltb_lt in H. rewrite H. reflexivity.
  - destruct (N.ltb_spec a b); [lia |].
    destruct (N.eqb_spec a b); [lia | reflexivity].
Qed.

Lemma lex_compare_refl s : lex_compare s s = Eq.
Proof.
  induction s as [|a s IH]; simpl; [reflexivity |].
  rewrite N.compare_refl. exact IH.
Qed.

Lemma lex_compare_app p1 p2 s1 s2 :
  length p1 = length p2 ->
  lex_compare (p1 ++ s1) (p2 ++ s2) =
  match lex_compare p1 p2 with
  | Eq => lex_compare s1 s2
  | c => c
  end.
Proof.
  revert p2. induction p1 as [|a p1 IH]; intros [|b p2]; simpl;
    try discriminate; [reflexivity |].
  intros [= Hlen]. destruct (a ?= b); auto.
Qed.

Lemma lex_compare_same p s1 s2 :
  lex_compare (p ++ s1) (p ++ s2) = lex_compare s1 s2.
Proof.
  rewrite lex_compare_app by reflexivity. rewrite lex_compare_refl.
  reflexivity.
Qed.

Lemma compare_by_digits n m :
  (n ?= m) = match n / 10 ?= m / 10 with
             | Eq => 0x30 + n mod 10 ?= 0x30 + m mod 10
             | c => c
             end.
Proof.
  pose proof (N.div_mod n 10 ltac:(lia)) as Hn.
  pose proof (N.div_mod m 10 ltac:(lia)) as Hm.
  pose proof (N.mod_lt n 10 ltac:(lia)) as Hn'.
  pose proof (N.mod_lt m 10 ltac:(lia)) as Hm'.
  revert Hn Hm Hn' Hm'.
  generalize (n / 10) (n mod 10) (m / 10) (m mod 10).
  intros qn rn qm rm Hn Hm Hn' Hm'.
  destruct (N.compare_spec qn qm) as [Hq | Hq | Hq].
  - destruct (N.compare_spec (0x30 + rn) (0x30 + rm));
      [apply N.compare_eq_iff | apply N.compare_lt_iff
       | apply N.compare_gt_iff]; lia.
  - apply N.compare_lt_iff. lia.
  - apply N.compare_gt_iff. lia.
Qed.

(** Numbers printed in the same width compare as they do as numbers. *)
Lemma lex_compare_zero_padded w n m :
  n < 10 ^ N.of_nat w -> m < 10 ^ N.of_nat w ->
  lex_compare (zero_padded w n) (zero_padded w m) = (n ?= m).
Proof.
  revert n m. induction w as [|w IH]; intros n m Hn Hm.
  - simpl in *. assert (n = 0) as -> by lia. assert (m = 0) as -> by lia.
    reflexivity.
  - cbn [zero_padded].
    rewrite lex_compare_app by (rewrite !length_zero_padded; reflexivity).
    rewrite Nat2N.inj_succ, N.pow_succ_r' in Hn, Hm.
    rewrite IH by (apply N.Div0.div_lt_upper_bound; lia).
    rewrite (compare_by_digits n m). cbn [lex_compare].
    destruct (n / 10 ?= m / 10); try reflexivity.
    destruct (0x30 + n mod 10 ?= 0x30 + m mod 10); reflexivity.
Qed.

Lemma stamp_compare a b :
  in_range a -> in_range b ->
  (microsecond a =? 0) = (microsecond b =? 0) ->
  lex_compare (isoformat a ++ U "Z") (isoformat b ++ U "Z")
  = lex_compare (fields a) (fields b).
Proof.
  intros (Ha1 & Ha2 & Ha3 & Ha4 & Ha5 & Ha6 & Ha7)
         (Hb1 & Hb2 & Hb3 & Hb4 & Hb5 & Hb6 & Hb7) Hus.
  unfold isoformat, fields. rewrite <- !app_assoc. cbn [lex_compare].
  repeat (rewrite lex_compare_app
            by (rewrite !length_zero_padded; reflexivity);
          rewrite lex_compare_zero_padded by assumption;
          match goal with
          | |- context [lex_compare (U ?sep ++ _) (U ?sep ++ _)] =>
              rewrite (lex_compare_same (U sep))
          | _ => idtac
          end;
          match goal with
          | |- match ?c with _ => _ end = match ?c with _ => _ end =>
              destruct c; try reflexivity
          end).
  rewrite <- Hus. destruct (N.eqb_spec (microsecond a) 0) as [Hz | Hz].
  - symmetry in Hus. apply N.eqb_eq in Hus. rewrite Hz, Hus. reflexivity.
  - rewrite <- !app_assoc, (lex_compare_same (U ".")).
    rewrite lex_compare_app by (rewrite !length_zero_padded; reflexivity).
    rewrite lex_compare_zero_padded by assumption.
    destruct (microsecond a ?= microsecond b); reflexivity.
Qed.

Lemma stamp_leb a b :
  in_range a -> in_range b ->
  (microsecond a =? 0) = (microsecond b =? 0) ->
  str_leb (isoformat a ++ U "Z") (isoformat b ++ U "Z") = datetime_leb a b.
Proof.
  intros Ha Hb Hus. unfold datetime_leb.
  rewrite !str_leb_compare, stamp_compare by assumption. reflexivity.
Qed.

(** X22. Two time stamps compare as strings the way their readings compare
    in time, provided both readings fall on a full second or neither does:
    the widths are then the same. *)
Theorem fetched_at_order_agrees_within_a_width (a b : datetime) :
  in_range a -> in_range b ->
  (microsecond a =? 0) = (microsecond b =? 0) ->
  str_leb (isoformat a ++ U "Z") (isoformat b ++ U "Z") = datetime_leb a b
  /\ length (isoformat a ++ U "Z") = length (isoformat b ++ U "Z").
Proof.
  intros Ha Hb Hus. split; [apply stamp_leb; assumption |].
  rewrite !length_isoformat, Hus. reflexivity.
Qed.

(** *** The order of the stored rows *)

Section StampedStore.
Variable utcnow : nat -> datetime.
Hypothesis readings_in_range : forall n, in_range (utcnow n).
Hypothesis readings_one_width :
  forall n m, (microsecond (utcnow n) =? 0) = (microsecond (utcnow m) =? 0).
Hypothesis clock_monotone :
  forall n m, (n <= m)%nat -> datetime_leb (utcnow n) (utcnow m) = true.

Lemma save_item_stamped db n it :
  stamped_in_order utcnow db ->
  stamped_in_order utcnow (save_item utcnow (db, n) it).1.
Proof.
  intros [Hsorted Hrows]. unfold stamped_in_order, save_item, insert.
  destruct (guid_taken _ _); cbn [fst items clock]; split.
  - exact Hsorted.
  - eapply Forall_impl; [exact Hrows |].
    intros r (k & Hk & Hr). exists k. split; [lia | exact Hr].
  - apply Sorted_snoc; [exact Hsorted |].
    destruct (items db) as [|r t _] using rev_ind; constructor.
    apply Forall_app in Hrows as [_ Hr]. apply Forall_cons in Hr as [Hr _].
    destruct Hr as (k & Hk & Hr). unfold fetched_le. cbn [fetched_at].
    rewrite Hr, stamp_leb by auto. apply clock_monotone. lia.
  - apply Forall_app. split.
    + eapply Forall_impl; [exact Hrows |].
      intros r (k & Hk & Hr). exists k. split; [lia | exact Hr].
    + constructor; [| constructor]. exists (clock db).
      split; [lia | reflexivity].
Qed.

Lemma save_items_stamped db its :
  stamped_in_order utcnow db ->
  stamped_in_order utcnow (save_items utcnow db its).1.
Proof.
  revert db. induction its as [|it its IH]; intros db Hdb; [exact Hdb |].
  rewrite save_items_cons. cbv zeta. cbn [fst]. apply IH.
  apply save_item_stamped. exact Hdb.
Qed.

End StampedStore.

(** X23. With a clock that never goes back and whose readings all print in
    one width (all off the full second, say), the rows of the table lie in
    non-decreasing order of [fetched_at], batch after batch, from the empty
    table on: the order of insertion is the order of the time stamps. *)
Theorem rows_stored_in_order_of_fetched_at
        (utcnow : nat -> datetime) (db : rssdb) (its : list item) :
  (forall n, in_range (utcnow n)) ->
  (forall n m,
     (microsecond (utcnow n) =? 0) = (microsecond (utcnow m) =? 0)) ->
  (forall n m, (n <= m)%nat -> datetime_leb (utcnow n) (utcnow m) = true) ->
  stamped_in_order utcnow db ->
  stamped_in_order utcnow (save_items utcnow db its).1
  /\ stamped_in_order utcnow (RssDb [] 0).
Proof.
  intros H1 H2 H3 Hdb. split; [apply save_items_stamped; assumption |].
  split; constructor.
Qed.

(** ** [run_poll]: a pass over the URLs, the snapshot, the wait *)

Section PollerMore.
Variable L : Lib.
Variable utcnow : nat -> datetime.

Lemma poll_url_fails st feed :
  delivers feed = false -> poll_url utcnow st feed = st.
Proof.
  destruct st as [db n]. unfold delivers, poll_url.
  destruct feed as [root|]; [| reflexivity].
  destruct (parse_rss root); [discriminate | reflexivity].
Qed.

Lemma fold_poll_url_filter fs st :
  fold_left (poll_url utcnow) fs st
  = fold_left (poll_url utcnow) (List.filter delivers fs) st.
Proof.
  revert st. induction fs as [|f fs IH]; intros st; [reflexivity |].
  cbn [fold_left List.filter]. destruct (delivers f) eqn:Hf.
  - cbn [fold_left]. apply IH.
  - rewrite poll_url_fails by exact Hf. apply IH.
Qed.

(** X24. A URL that fails, in the fetch, in the XML or in [parse_rss], takes
    nothing away from the others: the pass leaves the poller, and returns
    the count, that the pass over the other URLs alone gives. *)
Theorem poll_pass_isolates_failures (p : poller) (fs : list (option elem)) :
  poll_pass L utcnow p fs = poll_pass L utcnow p (List.filter delivers fs).
Proof. unfold poll_pass. rewrite fold_poll_url_filter. reflexivity. Qed.

Lemma poll_url_grows db n feed :
  exists added,
    items (poll_url utcnow (db, n) feed).1 = items db ++ added
    /\ (poll_url utcnow (db, n) feed).2 = (n + length added)%nat.
Proof.
  unfold poll_url. destruct feed as [root|];
    [| exists []; rewrite app_nil_r; cbn; split; [reflexivity | lia]].
  destruct (parse_rss root) as [its|];
    [| exists []; rewrite app_nil_r; cbn; split; [reflexivity | lia]].
  destruct (save_items_grows utcnow db its) as (added & Hrows & Hlen & _).
  destruct (save_items utcnow db its) as [db' k]. cbn [fst snd] in *.
  exists added. split; [exact Hrows | lia].
Qed.

Lemma fold_poll_url_grows fs db n :
  exists added,
    items (fold_left (poll_url utcnow) fs (db, n)).1 = items db ++ added
    /\ (fold_left (poll_url utcnow) fs (db, n)).2 = (n + length added)%nat.
Proof.
  revert db n. induction fs as [|f fs IH]; intros db n.
  - exists []. rewrite app_nil_r. cbn. split; [reflexivity | lia].
  - cbn [fold_left]. destruct (poll_url_grows db n f) as (a1 & H1 & H2).
    destruct (poll_url utcnow (db, n) f) as [db1 n1]. cbn [fst snd] in *.
    destruct (IH db1 n1) as (a2 & H3 & H4).
    exists (a1 ++ a2). rewrite H3, H4, H1, H2, app_assoc, length_app.
    split; [reflexivity | lia].
Qed.



Lemma poll_url_known db n feed :
  (forall root its,
     feed = Some root -> parse_rss root = Ok its ->
     Forall (fun it => guid_taken (items db) (get it "guid") = true) its) ->
  exists c, poll_url utcnow (db, n) feed = (RssDb (items db) c, n).
Proof.
  intros Hk. unfold poll_url. destruct feed as [root|];
    [| exists (clock db); destruct db; reflexivity].
  destruct (parse_rss root) as [its|] eqn:Hp;
    [| exists (clock db); destruct db; reflexivity].
  rewrite (save_items_all_known utcnow db its (Hk root its eq_refl Hp)).
  eexists. rewrite Nat.add_0_r. reflexivity.
Qed.

Lemma fold_poll_url_known fs db n :
  Forall (fun feed =>
            forall root its,
              feed = Some root -> parse_rss root = Ok its ->
              Forall (fun it => guid_taken (items db) (get it "guid") = true)
                     its) fs ->
  exists c, fold_left (poll_url utcnow) fs (db, n) = (RssDb (items db) c, n).
Proof.
  revert db. induction fs as [|f fs IH]; intros db Hall.
  - exists (clock db). destruct db. reflexivity.
  - apply Forall_cons in Hall as [Hf Hall]. cbn [fold_left].
    destruct (poll_url_known db n f Hf) as [c ->].
    apply (IH (RssDb (items db) c)). exact Hall.
Qed.

Lemma fold_poll_url_takes fs db n :
  Forall all_with_guid fs ->
  Forall (fun feed =>
            forall root its,
              feed = Some root -> parse_rss root = Ok its ->
              Forall (fun it =>
                        guid_taken
                          (items (fold_left (poll_url utcnow) fs (db, n)).1)
                          (get it "guid") = true) its) fs.
Proof.
  revert db n. induction fs as [|f fs IH]; intros db n Hall; [constructor |].
  apply Forall_cons in Hall as [Hf Hall]. cbn [fold_left].
  destruct (poll_url utcnow (db, n) f) as [db1 n1] eqn:H1.
  constructor; [| apply IH; exact Hall].
  intros root its -> Hp. unfold all_with_guid in Hf. rewrite Hp in Hf.
  unfold poll_url in H1. rewrite Hp in H1.
  pose proof (save_items_takes utcnow db its Hf) as Htaken.
  destruct (save_items utcnow db its) as [db' k]. injection H1 as <- <-.
  destruct (fold_poll_url_grows fs db' (n + k)) as (added & -> & _).
  eapply Forall_impl; [exact Htaken |].
  intros it Hit. apply guid_taken_app. exact Hit.
Qed.

(** X26. When every record of every document has a guid, a second pass over
    the same documents adds nothing: the count is zero, the table and the
    snapshot are as the first pass left them. *)
Theorem poll_pass_again_adds_nothing (p : poller) (fs : list (option elem)) :
  Forall all_with_guid fs ->
  let first := poll_pass L utcnow p fs in
  let second := poll_pass L utcnow first.1 fs in
  second.2 = 0%nat
  /\ items (store second.1) = items (store first.1)
  /\ snapshot second.1 = snapshot first.1.
Proof.
  intros Hall first second.
  pose proof (fold_poll_url_takes fs (store p) 0 Hall) as Htaken.
  assert (items (store first.1)
          = items (fold_left (poll_url utcnow) fs (store p, 0%nat)).1) as Hfirst.
  { unfold first, poll_pass. destruct (fold_left _ _ _). reflexivity. }
  rewrite <- Hfirst in Htaken.
  destruct (fold_poll_url_known fs (store first.1) 0 Htaken) as [c Hc].
  unfold second, poll_pass. rewrite Hc. cbn. repeat split.
Qed.

(** *** The wait *)

Section Wait.
Variable stop : nat -> bool.

Lemma wait_quiet fuel interval slept reads :
  (Z.to_nat (interval - slept) <= fuel)%nat ->
  (forall i, (i < Z.to_nat (interval - slept))%nat ->
             stop (reads + i) = false) ->
  wait stop fuel interval slept reads
  = Some (Z.max slept interval, (reads + Z.to_nat (interval - slept))%nat).
Proof.
  revert slept reads. induction fuel as [|fuel IH]; intros slept reads Hf Hq.
  - cbn [wait]. destruct (Z.ltb_spec slept interval); [lia |].
    do 2 f_equal; lia.
  - cbn [wait]. destruct (Z.ltb_spec slept interval) as [Hlt | Hge];
      [| do 2 f_equal; lia].
    pose proof (Hq 0%nat ltac:(lia)) as H0. rewrite Nat.add_0_r in H0.
    rewrite H0. replace (Z.min 1 (interval - slept)) with 1%Z by lia.
    rewrite IH.
    + do 2 f_equal; lia.
    + lia.
    + intros i Hi. replace (S reads + i)%nat with (reads + S i)%nat by lia.
      apply Hq. lia.
Qed.

Lemma wait_stopped fuel interval slept reads k :
  (Z.to_nat (interval - slept) <= fuel)%nat ->
  (k < Z.to_nat (interval - slept))%nat ->
  (forall i, (i < k)%nat -> stop (reads + i) = false) ->
  stop (reads + k) = true ->
  wait stop fuel interval slept reads
  = Some ((slept + Z.of_nat k)%Z, S (reads + k)).
Proof.
  revert slept reads k.
  induction fuel as [|fuel IH]; intros slept reads k Hf Hk Hq Hs; [lia |].
  cbn [wait]. destruct (Z.ltb_spec slept interval) as [Hlt | Hge]; [| lia].
  destruct k as [|k].
  - rewrite Nat.add_0_r in Hs. rewrite Hs. do 2 f_equal; lia.
  - pose proof (Hq 0%nat ltac:(lia)) as H0. rewrite Nat.add_0_r in H0.
    rewrite H0. replace (Z.min 1 (interval - slept)) with 1%Z by lia.
    rewrite (IH _ _ k).
    + do 2 f_equal; lia.
    + lia.
    + lia.
    + intros i Hi. replace (S reads + i)%nat with (reads + S i)%nat by lia.
      apply Hq. lia.
    + replace (S reads + k)%nat with (reads + S k)%nat by lia. exact Hs.
Qed.

Lemma wait_total fuel interval slept reads :
  (Z.to_nat (interval - slept) <= fuel)%nat ->
  exists s r, wait stop fuel interval slept reads = Some (s, r)
              /\ (reads <= r)%nat.
Proof.
  revert slept reads. induction fuel as [|fuel IH]; intros slept reads Hf.
  - cbn [wait]. destruct (Z.ltb_spec slept interval); [lia |]. eauto.
  - cbn [wait]. destruct (Z.ltb_spec slept interval) as [Hlt | Hge];
      [| eauto].
    destruct (stop reads); [eauto |].
    replace (Z.min 1 (interval - slept)) with 1%Z by lia.
    destruct (IH (slept + 1)%Z (S reads)) as (s & r & -> & Hr); [lia |].
    exists s, r. split; [reflexivity | lia].
Qed.

(** X27. The wait between two passes: while [STOP] is not set it sleeps
    second by second until [interval] seconds are over, reading [STOP]
    before each second; it returns at the first read that finds [STOP]
    set, having slept as many seconds as reads went before. An interval of
    zero or less is no wait. *)
Theorem wait_sleeps_or_stops (interval : Z) (reads : nat) :
  ((forall i, (i < Z.to_nat interval)%nat -> stop (reads + i) = false) ->
   wait stop (Z.to_nat interval) interval 0 reads
   = Some (Z.max 0 interval, (reads + Z.to_nat interval)%nat))
  /\ (forall k,
        (k < Z.to_nat interval)%nat ->
        (forall i, (i < k)%nat -> stop (reads + i) = false) ->
        stop (reads + k) = true ->
        wait stop (Z.to_nat interval) interval 0 reads
        = Some (Z.of_nat k, S (reads + k)))
  /\ ((interval <= 0)%Z ->
      wait stop (Z.to_nat interval) interval 0 reads = Some (0%Z, reads)).
Proof.
  split; [| split].
  - intros Hq. rewrite wait_quiet; rewrite ?Z.sub_0_r; auto.
  - intros k Hk Hq Hs.
    rewrite (wait_stopped _ _ _ _ k); rewrite ?Z.sub_0_r; auto.
  - intros Hle. rewrite wait_quiet; rewrite ?Z.sub_0_r;
      first [ lia | do 2 f_equal; lia | intros i Hi; lia ].
Qed.

Variable feeds : nat -> list (option elem).



Lemma run_loop_stops K fuel interval once p reads pass :
  (forall n, (K <= n)%nat -> stop n = true) ->
  (S (K - reads) <= fuel)%nat ->
  exists p' n,
    run_loop L utcnow stop feeds fuel interval once p reads pass
    = Some (p', n)
    /\ (n <= pass + (K - reads))%nat.
Proof.
  intros Hstop. revert p reads pass.
  induction fuel as [|fuel IH]; intros p reads pass Hf; [lia |].
  cbn [run_loop]. destruct (stop reads) eqn:Hs.
  - exists p, pass. split; [reflexivity | lia].
  - assert (reads < K)%nat as Hlt.
    { destruct (Nat.lt_ge_cases reads K); [assumption |].
      rewrite Hstop in Hs by assumption. discriminate. }
    destruct once.
    + eexists _, _. split; [reflexivity | lia].
    + destruct (wait_total (Z.to_nat interval) interval 0 (S reads))
        as (s & r & -> & Hr); [lia |].
      destruct (IH (poll_pass L utcnow p (feeds pass)).1 r (S pass))
        as (p' & n & -> & Hn); [lia |].
      exists p', n. split; [reflexivity | lia].
Qed.

(** X29. Once [STOP] is set for good, [run_poll] comes to its end: if every
    read of [STOP] from the [K]-th on finds it set, the loop ends within
    [K + 1] turns, after [K] passes at most. With [once] and [STOP] not set
    it ends after the first pass. *)
Theorem run_poll_stops
        (K : nat) (interval : Z) (once : bool) (db : rssdb) :
  (forall n, (K <= n)%nat -> stop n = true) ->
  exists p n,
    run_poll L utcnow stop feeds (S K) interval once db = Some (p, n)
    /\ (n <= K)%nat
    /\ (once = true -> stop 0%nat = false ->
        run_poll L utcnow stop feeds (S K) interval once db
        = Some ((poll_pass L utcnow
                   (Poller db (export_db_to_json L (items db)).1)
                   (feeds 0%nat)).1, 1%nat)).
Proof.
  intros Hstop. unfold run_poll.
  destruct (run_loop_stops K (S K) interval once
              (Poller db (export_db_to_json L (items db)).1) 0 0 Hstop)
    as (p & n & H & Hn); [lia |].
  exists p, n. split; [exact H |]. split; [lia |].
  intros -> H0. cbn [run_loop]. rewrite H0. reflexivity.
Qed.

End Wait.

End PollerMore.

(** ** From the feed to the two files *)

Section EndToEnd.
Variable L : Lib.
Variable utcnow : nat -> datetime.

Lemma save_items_summaries db its :
  Forall (fun r => summary r <> Some []) (items db) ->
  Forall (fun it => get it "summary" <> Some []) its ->
  Forall (fun r => summary r <> Some [])
         (items (save_items utcnow db its).1).
Proof.
  revert db. induction its as [|it its IH]; intros db Hdb Hits; [exact Hdb |].
  apply Forall_cons in Hits as [Hit Hits].
  rewrite save_items_cons. cbv zeta. cbn [fst]. apply IH; [| exact Hits].
  unfold save_item, insert.
  destruct (guid_taken _ _); cbn [fst items]; [exact Hdb |].
  apply Forall_app. split; [exact Hdb |].
  constructor; [exact Hit | constructor].
Qed.

Lemma poll_url_summaries db n feed :
  Forall (fun r => summary r <> Some []) (items db) ->
  Forall (fun r => summary r <> Some [])
         (items (poll_url utcnow (db, n) feed).1).
Proof.
  intros Hdb. unfold poll_url. destruct feed as [root|]; [| exact Hdb].
  destruct (parse_rss root) as [its|] eqn:Hp; [| exact Hdb].
  pose proof (save_items_summaries db its Hdb) as H.
  destruct (save_items utcnow db its) as [db' k]. cbn [fst] in *.
  apply H. eapply Forall_impl.
  - eapply (parse_rss_Forall record_shape); [apply parse_entry_shape | exact Hp].
  - intros it (_ & _ & _ & Hne). apply Hne.
Qed.

Lemma fold_poll_url_summaries fs db n :
  Forall (fun r => summary r <> Some []) (items db) ->
  Forall (fun r => summary r <> Some [])
         (items (fold_left (poll_url utcnow) fs (db, n)).1).
Proof.
  revert db n. induction fs as [|f fs IH]; intros db n Hdb; [exact Hdb |].
  cbn [fold_left]. pose proof (poll_url_summaries db n f Hdb) as H.
  destruct (poll_url utcnow (db, n) f) as [db1 n1]. apply IH. exact H.
Qed.

(** X30. What the parser stores never makes the two files differ: when no
    summary of the table is the empty string before a pass, none is after
    it, and [export] without filters then writes exactly what the snapshot
    of [export_db_to_json] holds. *)
Theorem export_matches_snapshot_after_pass
        (p : poller) (fs : list (option elem)) :
  Forall (fun r => summary r <> Some []) (items (store p)) ->
  let t := items (store (poll_pass L utcnow p fs).1) in
  Forall (fun r => summary r <> Some []) t
  /\ ExportJsonl.export L t None None = Ok (export_db_to_json L t).
Proof.
  intros Hp t.
  assert (Forall (fun r => summary r <> Some []) t) as Ht.
  { unfold t, poll_pass.
    pose proof (fold_poll_url_summaries fs (store p) 0 Hp) as H.
    destruct (fold_left _ _ _) as [db n]. exact H. }
  split; [exact Ht | apply export_eq_snapshot; exact Ht].
Qed.

End EndToEnd.

(** ** The properties at concrete inputs *)

Lemma save_items_again_witness :
  let first := save_items Samples.clock (RssDb [] 0)
                 [Samples.item_a; Samples.item_b] in
  save_items Samples.clock first.1 [Samples.item_a; Samples.item_b]
  = (RssDb (items first.1) (clock first.1 + 2), 0%nat).
Proof.
  apply (save_items_again_adds_nothing Samples.clock (RssDb [] 0)
           [Samples.item_a; Samples.item_b]).
  repeat constructor; vm_compute; discriminate.
Defined.

Lemma save_items_without_guid_witness :
  (save_items Samples.clock (RssDb [] 0)
     [Samples.item_without_guid; Samples.item_without_guid]).2 = 2%nat
  /\ length (items (save_items Samples.clock (RssDb [] 0)
                      [Samples.item_without_guid;
                       Samples.item_without_guid]).1) = 2%nat.
Proof.
  apply (save_items_without_guid_all_added Samples.clock (RssDb [] 0)
           [Samples.item_without_guid; Samples.item_without_guid]).
  repeat constructor.
Defined.

Lemma save_items_guids_distinct_witness :
  NoDup (omap guid (items (save_items Samples.clock (RssDb [] 0)
                             [Samples.item_a; Samples.item_a;
                              Samples.item_b]).1)).
Proof.
  apply (save_items_guids_distinct Samples.clock (RssDb [] 0)).
  constructor.
Defined.

Lemma parse_rss_records_witness :
  exists its,
    parse_rss Samples.feed = Ok its
    /\ Forall2 (fun e d => parse_entry e = Ok d)
         (List.filter (has_name ["item"; "entry"])
            (flat_map iter (children Samples.feed))) its
    /\ length its
       = length (List.filter (has_name ["item"; "entry"])
                   (flat_map iter (children Samples.feed))).
Proof.
  apply (parse_rss_records_in_document_order Samples.feed).
  repeat (constructor; [eexists; vm_compute; reflexivity |]). constructor.
Defined.

Lemma parse_rss_record_shape_witness :
  Forall record_shape
    [ {[ "title" := Some (U "First"); "link" := Some (U "http://x/1");
         "summary" := Some (U "Body"); "guid" := Some (U "http://x/1") ]};
      {[ "guid" := Some (U "g2"); "title" := Some (U "(no title)") ]} ].
Proof.
  apply (parse_rss_record_shape Samples.feed). vm_compute. reflexivity.
Defined.

Lemma guid_of_entry_witness :
  (Forall (fun c => has_name ["guid"] c = false)
          (children Samples.entry_with_link) ->
   get {[ "title" := Some (U "First"); "link" := Some (U "http://x/1");
          "summary" := Some (U "Body"); "guid" := Some (U "http://x/1") ]}
       "guid"
   = get {[ "title" := Some (U "First"); "link" := Some (U "http://x/1");
            "summary" := Some (U "Body"); "guid" := Some (U "http://x/1") ]}
         "link")
  /\ (forall pre c post,
        children Samples.entry_with_link = pre ++ c :: post ->
        has_name ["guid"] c = true ->
        Forall (fun c' => has_name ["guid"] c' = false) post ->
        get {[ "title" := Some (U "First"); "link" := Some (U "http://x/1");
               "summary" := Some (U "Body");
               "guid" := Some (U "http://x/1") ]} "guid"
        = match stripped_text c with
          | Some x => Some x
          | None =>
              get {[ "title" := Some (U "First");
                     "link" := Some (U "http://x/1");
                     "summary" := Some (U "Body");
                     "guid" := Some (U "http://x/1") ]} "link"
          end).
Proof.
  apply (guid_of_entry Samples.entry_with_link). vm_compute. reflexivity.
Defined.

Lemma title_of_entry_witness :
  get {[ "guid" := Some (U "g2"); "title" := Some (U "(no title)") ]} "title"
  = match get {[ "guid" := Some (U "g2");
                 "title" := Some (U "(no title)") ]} "summary" with
    | Some x => Some x
    | None => Some (U "(no title)")
    end
  /\ get {[ "guid" := Some (U "g2"); "title" := Some (U "(no title)") ]}
         "title" <> None.
Proof.
  apply (title_of_entry_without_title Samples.entry_with_guid).
  - vm_compute. reflexivity.
  - repeat (constructor; [vm_compute; reflexivity |]). constructor.
Defined.

Lemma entry_without_known_children_witness :
  parse_entry Samples.entry_with_category
  = Ok {[ "guid" := None; "title" := Some (U "(no title)") ]}.
Proof.
  apply (entry_without_known_children Samples.entry_with_category).
  - repeat (constructor; [eexists; vm_compute; reflexivity |]). constructor.
  - repeat (constructor; [vm_compute; reflexivity |]). constructor.
Defined.

Lemma snapshot_summary_normalized_witness :
  U "now" <> []
  /\ strip (U "now") = U "now"
  /\ sub AsciiLib.lib ExportJsonl.ws_re (U " ") (U "now") = U "now"
  /\ Forall (fun x => isspace x = true -> x = 0x20) (U "now")
  /\ clean_summary_for_snapshot AsciiLib.lib None = None
  /\ clean_summary_for_snapshot AsciiLib.lib (Some []) = None.
Proof.
  apply (snapshot_summary_normalized AsciiLib.lib
           (Some (U "I AGREE <b>Subscribe</b> now"))).
  vm_compute. reflexivity.
Defined.

Lemma export_summary_normalized_witness :
  U "now" <> []
  /\ strip (U "now") = U "now"
  /\ sub AsciiLib.lib ExportJsonl.ws_re (U " ") (U "now") = U "now"
  /\ Forall (fun x => isspace x = true -> x = 0x20) (U "now").
Proof.
  apply (export_summary_normalized AsciiLib.lib
           (Some (U "I AGREE <b>Subscribe</b> now"))).
  - discriminate.
  - vm_compute. reflexivity.
Defined.

Lemma clean_summary_leaves_no_tag_witness :
  search AsciiLib.lib ExportJsonl.tag_re (U "a c") = false
  /\ 0x26 ∉ U "a c".
Proof.
  apply (clean_summary_leaves_no_tag AsciiLib.lib (U "a<b>c")).
  - apply (bool_decide_unpack _). vm_compute. exact I.
  - vm_compute. reflexivity.
Defined.

Lemma export_without_filters_witness :
  exists rs,
    ExportJsonl.export AsciiLib.lib [Samples.row_late; Samples.row_early]
      (Some []) (Some 0%Z)
    = Ok (map (ExportJsonl.project AsciiLib.lib) rs,
          length [Samples.row_late; Samples.row_early])
    /\ Permutation rs [Samples.row_late; Samples.row_early]
    /\ Sorted fetched_le rs.
Proof.
  apply (export_without_filters_writes_all AsciiLib.lib).
  - reflexivity.
  - right. reflexivity.
Defined.

Lemma export_limit_out_of_range_witness :
  ExportJsonl.export AsciiLib.lib [Samples.row_early] None
    (Some (2 ^ 63)%Z) = Raise OverflowError.
Proof.
  apply (export_limit_out_of_range AsciiLib.lib). right. lia.
Defined.

Lemma export_negative_limit_witness :
  ExportJsonl.export AsciiLib.lib [Samples.row_early] None (Some (-1)%Z)
  = ExportJsonl.export AsciiLib.lib [Samples.row_early] None None.
Proof.
  apply (export_negative_limit_caps_nothing AsciiLib.lib). lia.
Defined.

Lemma export_written_count_witness :
  exists objs,
    ExportJsonl.export AsciiLib.lib [Samples.row_late; Samples.row_early]
      None (Some 1%Z)
    = Ok (objs, Nat.min (Z.to_nat 1)
                  (length [Samples.row_late; Samples.row_early]))
    /\ length objs
       = Nat.min (Z.to_nat 1) (length [Samples.row_late; Samples.row_early]).
Proof.
  apply (export_written_count AsciiLib.lib
           [Samples.row_late; Samples.row_early] None 1%Z).
  lia.
Defined.

Lemma export_limit_prefix_witness :
  exists rs rs',
    ExportJsonl.select_since [Samples.row_late; Samples.row_early] None
      (Some 1%Z) = Ok rs
    /\ ExportJsonl.select_since [Samples.row_late; Samples.row_early] None
         (Some 2%Z) = Ok rs'
    /\ rs = take (Z.to_nat 1) rs'.
Proof.
  apply (export_limit_prefix [Samples.row_late; Samples.row_early] None
           1%Z 2%Z); lia.
Defined.

Lemma snapshot_is_unfiltered_export_witness :
  ExportJsonl.export AsciiLib.lib [Samples.row_late; Samples.row_early]
    None None
  = Ok (export_db_to_json AsciiLib.lib [Samples.row_late; Samples.row_early])
  /\ (export_db_to_json AsciiLib.lib
        [Samples.row_late; Samples.row_early]).2 = 2%nat
  /\ length (export_db_to_json AsciiLib.lib
               [Samples.row_late; Samples.row_early]).1 = 2%nat.
Proof.
  apply (snapshot_is_unfiltered_export AsciiLib.lib).
  repeat constructor; discriminate.
Defined.

Lemma fetched_at_order_witness :
  str_leb (isoformat (Datetime 2025 10 25 12 0 0 1) ++ U "Z")
          (isoformat (Datetime 2025 10 25 12 0 1 1) ++ U "Z")
  = datetime_leb (Datetime 2025 10 25 12 0 0 1) (Datetime 2025 10 25 12 0 1 1)
  /\ length (isoformat (Datetime 2025 10 25 12 0 0 1) ++ U "Z")
     = length (isoformat (Datetime 2025 10 25 12 0 1 1) ++ U "Z").
Proof.
  apply (fetched_at_order_agrees_within_a_width
           (Datetime 2025 10 25 12 0 0 1) (Datetime 2025 10 25 12 0 1 1)).
  - repeat split; reflexivity.
  - repeat split; reflexivity.
  - reflexivity.
Defined.

Lemma rows_stored_in_order_witness :
  stamped_in_order Samples.clock
    (save_items Samples.clock (RssDb [] 0)
       [Samples.item_a; Samples.item_b]).1
  /\ stamped_in_order Samples.clock (RssDb [] 0).
Proof.
  apply (rows_stored_in_order_of_fetched_at Samples.clock (RssDb [] 0)).
  - intros n. repeat split; reflexivity.
  - intros n m. reflexivity.
  - intros n m _. reflexivity.
  - split; constructor.
Defined.


Lemma poll_pass_again_witness :
  let first := poll_pass AsciiLib.lib Samples.clock
                 (Poller (RssDb [] 0) []) [Some Samples.feed] in
  let second := poll_pass AsciiLib.lib Samples.clock first.1
                  [Some Samples.feed] in
  second.2 = 0%nat
  /\ items (store second.1) = items (store first.1)
  /\ snapshot second.1 = snapshot first.1.
Proof.
  apply (poll_pass_again_adds_nothing AsciiLib.lib Samples.clock
           (Poller (RssDb [] 0) []) [Some Samples.feed]).
  constructor; [| constructor].
  unfold all_with_guid.
  replace (parse_rss Samples.feed)
    with (Ok [ ({[ "title" := Some (U "First");
                   "link" := Some (U "http://x/1");
                   "summary" := Some (U "Body");
                   "guid" := Some (U "http://x/1") ]} : item);
               {[ "guid" := Some (U "g2");
                  "title" := Some (U "(no title)") ]} ])
    by (vm_compute; reflexivity).
  repeat constructor; vm_compute; discriminate.
Defined.


Lemma run_poll_stops_witness :
  exists p n,
    run_poll AsciiLib.lib Samples.clock (fun n => (2 <=? n)%nat)
      (fun _ => [Some Samples.feed]) 3 1%Z false (RssDb [] 0) = Some (p, n)
    /\ (n <= 2)%nat
    /\ (false = true -> (2 <=? 0)%nat = false ->
        run_poll AsciiLib.lib Samples.clock (fun n => (2 <=? n)%nat)
          (fun _ => [Some Samples.feed]) 3 1%Z false (RssDb [] 0)
        = Some ((poll_pass AsciiLib.lib Samples.clock
                   (Poller (RssDb [] 0)
                      (export_db_to_json AsciiLib.lib (items (RssDb [] 0))).1)
                   [Some Samples.feed]).1, 1%nat)).
Proof.
  apply (run_poll_stops AsciiLib.lib Samples.clock (fun n => (2 <=? n)%nat)
           (fun _ => [Some Samples.feed]) 2 1%Z false (RssDb [] 0)).
  intros n Hn. apply Nat.leb_le. exact Hn.
Defined.

Lemma export_matches_snapshot_witness :
  let t := items (store (poll_pass AsciiLib.lib Samples.clock
                           (Poller (RssDb [] 0) [])
                           [Some Samples.feed]).1) in
  Forall (fun r => summary r <> Some []) t
  /\ ExportJsonl.export AsciiLib.lib t None None
     = Ok (export_db_to_json AsciiLib.lib t).
Proof.
  apply (export_matches_snapshot_after_pass AsciiLib.lib Samples.clock
           (Poller (RssDb [] 0) []) [Some Samples.feed]).
  constructor.
Defined.
